(** * BIP-39 mnemonic codec (ts_src/index.ts): shallow embedding and properties

    The embedding follows [ts_src/index.ts] function by function.

    - A JavaScript string is the list of its UTF-16 code units ([jsstring]).
    - A [Buffer] is a list of bytes.
    - A JavaScript number that holds an integer is a [Z]; [NaN] and
      [undefined] are [None].
    - [throw] is the [Throw] constructor of [result].
    - The module-level [DEFAULT_WORDLIST] is passed explicitly to the functions
      that read it, and returned by the one that writes it.
    - What the file imports ([create-hash], [pbkdf2], [randombytes], the
      platform's [String.prototype.normalize]) is a variable of the section
      [Bip39]; the wordlist table of [./_wordlists] is an argument. *)

From Stdlib Require Import Ascii String.
From Stdlib.Strings Require Import Byte.
From Stdlib Require Import List ZArith Lia Bool.
Import ListNotations.
Local Open Scope Z_scope.

(* ================================================================= *)
(** ** Values *)

Definition jsstring := list Z.
Definition Buffer := list byte.

(** An ASCII literal as a JavaScript string. *)
Definition js (s : string) : jsstring :=
  map (fun a => Z.of_N (N_of_ascii a)) (list_ascii_of_string s).

Fixpoint str_eqb (a b : jsstring) : bool :=
  match a, b with
  | [], [] => true
  | x :: a', y :: b' => (x =? y) && str_eqb a' b'
  | _, _ => false
  end.

Definition number_of_byte (b : byte) : Z := Z.of_N (Byte.to_N b).

(** Storing a number into a [Uint8Array] keeps its low eight bits. *)
Definition byte_of_number (z : Z) : byte :=
  match Byte.of_N (Z.to_N (z mod 256)) with
  | Some b => b
  | None => x00
  end.

Inductive exn : Type :=
| Error (message : jsstring)
| TypeError (message : jsstring)
| RangeError (message : jsstring).

Inductive result (A : Type) : Type :=
| Ok (a : A)
| Throw (e : exn).
Arguments Ok {A} a.
Arguments Throw {A} e.

Definition bind {A B} (r : result A) (k : A -> result B) : result B :=
  match r with
  | Ok a => k a
  | Throw e => Throw e
  end.

Notation "x <- r ;; k" := (bind r (fun x => k))
  (at level 61, r at next level, right associativity).

(** [Array.prototype.map] with a callback that may throw: the first throw,
    in index order, ends the call. *)
Fixpoint mapM {A B} (f : A -> result B) (l : list A) : result (list B) :=
  match l with
  | [] => Ok []
  | a :: l' => b <- f a ;; bs <- mapM f l' ;; Ok (b :: bs)
  end.

(** [Array.prototype.reduce] with the element index as third argument. *)
Fixpoint reduce_from {A B} (i : nat) (f : B -> A -> nat -> B) (l : list A) (acc : B) : B :=
  match l with
  | [] => acc
  | a :: l' => reduce_from (S i) f l' (f acc a i)
  end.

Definition reduce {A B} (f : B -> A -> nat -> B) (l : list A) (init : B) : B :=
  reduce_from 0 f l init.

Inductive StringOrBuffer : Type :=
| IsString (s : jsstring)
| IsBuffer (b : Buffer).

(** [array[index]] for a number index: [undefined] out of range or at [NaN]. *)
Definition array_get {A} (l : list A) (index : option Z) : option A :=
  match index with
  | Some z => if z <? 0 then None else nth_error l (Z.to_nat z)
  | None => None
  end.

(** [Array.prototype.indexOf] on an array of strings. *)
Fixpoint indexOf_from (i : Z) (l : list jsstring) (x : jsstring) : Z :=
  match l with
  | [] => -1
  | y :: l' => if str_eqb y x then i else indexOf_from (i + 1) l' x
  end.

Definition indexOf (l : list jsstring) (x : jsstring) : Z := indexOf_from 0 l x.

(* ================================================================= *)
(** ** Built-ins the file calls *)

Definition c0 : Z := 48.
Definition c1 : Z := 49.

(** [Number.prototype.toString(2)] on an integer. *)
Fixpoint pos_toString2 (p : positive) : jsstring :=
  match p with
  | xH => [c1]
  | xO q => pos_toString2 q ++ [c0]
  | xI q => pos_toString2 q ++ [c1]
  end.

Definition toString2 (z : Z) : jsstring :=
  match z with
  | Z0 => [c0]
  | Zpos p => pos_toString2 p
  | Zneg p => 45 :: pos_toString2 p
  end.

(** ECMAScript [WhiteSpace] and [LineTerminator] code units, which
    [parseInt] skips at the start of its input. *)
Definition is_line_terminator (c : Z) : bool :=
  (c =? 10) || (c =? 13) || (c =? 0x2028) || (c =? 0x2029).

Definition is_white_space (c : Z) : bool :=
  (c =? 9) || (c =? 11) || (c =? 12) || (c =? 32) || (c =? 160) ||
  (c =? 0x1680) || ((0x2000 <=? c) && (c <=? 0x200A)) || (c =? 0x202F) ||
  (c =? 0x205F) || (c =? 0x3000) || (c =? 0xFEFF) || is_line_terminator c.

Fixpoint skip_white_space (s : jsstring) : jsstring :=
  match s with
  | c :: s' => if is_white_space c then skip_white_space s' else s
  | [] => []
  end.

Definition is_bit (c : Z) : bool := (c =? c0) || (c =? c1).

(** The value of the longest prefix of binary digits, on top of [acc]. *)
Fixpoint parse_bits (acc : Z) (s : jsstring) : Z :=
  match s with
  | c :: s' => if is_bit c then parse_bits (2 * acc + (c - c0)) s' else acc
  | [] => acc
  end.

(** [parseInt(s, 2)]: [None] is [NaN].  The value is exact, as it is in
    JavaScript below 2^53, that is for at most 53 significant digits; from 54
    digits on JavaScript rounds to a double and this definition does not.
    The file passes groups of at most eleven digits. *)
Definition parseInt2 (s : jsstring) : option Z :=
  let t := skip_white_space s in
  let '(sign, digits) :=
    match t with
    | 45 :: t' => (-1, t')
    | 43 :: t' => (1, t')
    | _ => (1, t)
    end in
  match digits with
  | c :: _ => if is_bit c then Some (sign * parse_bits 0 digits) else None
  | [] => None
  end.

(** [s.match(/(.{1,k})/g)], for [k >= 1]: the successive longest runs of at
    most [k] code units that are not line terminators.  [cur] is the run
    being read and [room] how many more units it may take. *)
Definition flush (cur : jsstring) : list jsstring :=
  match cur with
  | [] => []
  | _ => [cur]
  end.

Fixpoint match_dot (k room : nat) (cur s : jsstring) : list jsstring :=
  match s with
  | [] => flush cur
  | c :: s' =>
      if is_line_terminator c then flush cur ++ match_dot k k [] s'
      else
        match room with
        | O => flush cur ++ match_dot k (k - 1) [c] s'
        | S r => match_dot k r (cur ++ [c]) s'
        end
  end.

(** [None] is the [null] that [match] returns when nothing matched. *)
Definition str_match (k : nat) (s : jsstring) : option (list jsstring) :=
  match match_dot k k [] s with
  | [] => None
  | l => Some l
  end.

(** The non-null assertion [x!] followed by a method call: a [TypeError]
    at run time when [x] is [null]. *)
Definition NULL_DEREFERENCE : jsstring := js "Cannot read property 'map' of null".

Definition non_null {A} (o : option A) : result A :=
  match o with
  | Some a => Ok a
  | None => Throw (TypeError NULL_DEREFERENCE)
  end.

(** [String.prototype.slice] with non-negative integer bounds. *)
Definition slice_to (s : jsstring) (e : nat) : jsstring := firstn e s.
Definition slice_from (s : jsstring) (b : nat) : jsstring := skipn b s.

(* ----------------------------------------------------------------- *)
(** *** UTF-8: [Buffer.from(str, 'utf8')] and [buf.toString('utf8')] *)

Definition utf8_of_code_point (cp : Z) : list byte :=
  if cp <? 0x80 then [byte_of_number cp]
  else if cp <? 0x800 then
    [byte_of_number (0xC0 + cp / 64); byte_of_number (0x80 + cp mod 64)]
  else if cp <? 0x10000 then
    [byte_of_number (0xE0 + cp / 4096);
     byte_of_number (0x80 + (cp / 64) mod 64);
     byte_of_number (0x80 + cp mod 64)]
  else
    [byte_of_number (0xF0 + cp / 262144);
     byte_of_number (0x80 + (cp / 4096) mod 64);
     byte_of_number (0x80 + (cp / 64) mod 64);
     byte_of_number (0x80 + cp mod 64)].

Definition is_high_surrogate (c : Z) : bool := (0xD800 <=? c) && (c <=? 0xDBFF).
Definition is_low_surrogate (c : Z) : bool := (0xDC00 <=? c) && (c <=? 0xDFFF).

(** U+FFFD, written for a surrogate that has no partner. *)
Definition replacement_bytes : list byte := [xef; xbf; xbd].

(** The encoding of each character of the string, in order. *)
Fixpoint utf8_chars (s : jsstring) : list (list byte) :=
  match s with
  | [] => []
  | c :: s' =>
      if is_high_surrogate c then
        match s' with
        | d :: s'' =>
            if is_low_surrogate d then
              utf8_of_code_point (0x10000 + (c - 0xD800) * 1024 + (d - 0xDC00))
                :: utf8_chars s''
            else replacement_bytes :: utf8_chars s'
        | [] => [replacement_bytes]
        end
      else if is_low_surrogate c then replacement_bytes :: utf8_chars s'
      else utf8_of_code_point c :: utf8_chars s'
  end.

Definition utf8_encode (s : jsstring) : Buffer := concat (utf8_chars s).

(** Decoder state: bytes still needed, the code point so far, and the
    bounds of the next continuation byte. *)
Record utf8_state : Type := {
  needed : nat;
  code_point : Z;
  lower : Z;
  upper : Z
}.

Definition utf8_init : utf8_state :=
  {| needed := 0; code_point := 0; lower := 0x80; upper := 0xBF |}.

Definition utf16_of_code_point (cp : Z) : jsstring :=
  if cp <? 0x10000 then [cp]
  else [0xD800 + (cp - 0x10000) / 1024; 0xDC00 + (cp - 0x10000) mod 1024].

(** A byte read when no sequence is open. *)
Definition utf8_lead (b : Z) : jsstring * utf8_state :=
  if b <=? 0x7F then ([b], utf8_init)
  else if (0xC2 <=? b) && (b <=? 0xDF) then
    ([], {| needed := 1; code_point := b - 0xC0; lower := 0x80; upper := 0xBF |})
  else if (0xE0 <=? b) && (b <=? 0xEF) then
    ([], {| needed := 2; code_point := b - 0xE0;
            lower := if b =? 0xE0 then 0xA0 else 0x80;
            upper := if b =? 0xED then 0x9F else 0xBF |})
  else if (0xF0 <=? b) && (b <=? 0xF4) then
    ([], {| needed := 3; code_point := b - 0xF0;
            lower := if b =? 0xF0 then 0x90 else 0x80;
            upper := if b =? 0xF4 then 0x8F else 0xBF |})
  else ([0xFFFD], utf8_init).

Definition utf8_step (st : utf8_state) (b : Z) : jsstring * utf8_state :=
  match needed st with
  | O => utf8_lead b
  | S n =>
      if (lower st <=? b) && (b <=? upper st) then
        let cp := code_point st * 64 + (b - 0x80) in
        match n with
        | O => (utf16_of_code_point cp, utf8_init)
        | S _ => ([], {| needed := n; code_point := cp; lower := 0x80; upper := 0xBF |})
        end
      else
        let '(out, st') := utf8_lead b in (0xFFFD :: out, st')
  end.

Fixpoint utf8_decode_from (st : utf8_state) (bs : Buffer) : jsstring :=
  match bs with
  | [] => match needed st with O => [] | S _ => [0xFFFD] end
  | b :: bs' =>
      let '(out, st') := utf8_step st (number_of_byte b) in
      out ++ utf8_decode_from st' bs'
  end.

Definition utf8_decode (bs : Buffer) : jsstring := utf8_decode_from utf8_init bs.

(* ----------------------------------------------------------------- *)
(** *** Hexadecimal: [buf.toString('hex')] and [Buffer.from(str, 'hex')] *)

Definition hex_digit (d : Z) : Z := if d <? 10 then 48 + d else 87 + d.

Definition toHex (b : Buffer) : jsstring :=
  concat (map (fun x => [hex_digit (number_of_byte x / 16);
                         hex_digit (number_of_byte x mod 16)]) b).

Definition hex_value (c : Z) : option Z :=
  if (48 <=? c) && (c <=? 57) then Some (c - 48)
  else if (97 <=? c) && (c <=? 102) then Some (c - 87)
  else if (65 <=? c) && (c <=? 70) then Some (c - 55)
  else None.

(** Decoding stops at the first pair that is not two hex digits. *)
Fixpoint fromHex (s : jsstring) : Buffer :=
  match s with
  | a :: b :: s' =>
      match hex_value a, hex_value b with
      | Some x, Some y => byte_of_number (16 * x + y) :: fromHex s'
      | _, _ => []
      end
  | _ => []
  end.

(* ----------------------------------------------------------------- *)
(** *** Writing into a [Buffer] *)

Definition OUT_OF_RANGE : jsstring := js "offset is out of bounds".

(** [target.set(source, offset)]. *)
Definition buffer_set (target source : Buffer) (offset : nat) : result Buffer :=
  if (length target <? offset + length source)%nat
  then Throw (RangeError OUT_OF_RANGE)
  else Ok (firstn offset target ++ source ++ skipn (offset + length source) target).

(** The longest run of whole characters that fits in [room] bytes. *)
Fixpoint take_fitting (room : nat) (chars : list (list byte)) : list byte :=
  match chars with
  | [] => []
  | ch :: chars' =>
      if (length ch <=? room)%nat
      then ch ++ take_fitting (room - length ch) chars'
      else []
  end.

(** [target.write(str, offset, len, 'utf8')]. *)
Definition buffer_write (target : Buffer) (str : jsstring) (offset len : nat)
  : result Buffer :=
  if (length target <? offset)%nat
  then Throw (RangeError OUT_OF_RANGE)
  else
    let written := take_fitting (Nat.min len (length target - offset)) (utf8_chars str) in
    Ok (firstn offset target ++ written ++ skipn (offset + length written) target).

Definition buffer_alloc (size : nat) : Buffer := repeat x00 size.

(* ================================================================= *)
(** ** ts_src/index.ts *)

Definition wordlist_t := list jsstring.

Definition INVALID_MNEMONIC : jsstring := js "Invalid mnemonic".
Definition INVALID_ENTROPY : jsstring := js "Invalid entropy".
Definition INVALID_CHECKSUM : jsstring := js "Invalid mnemonic checksum".
Definition WORDLIST_REQUIRED : jsstring :=
  js "A wordlist is required but a default could not be found." ++ [10] ++
  js "Please pass a 2048 word array explicitly.".

(** [a || b] where [a] is an array or [undefined]: an array is truthy, also
    an empty one. *)
Definition or_else {A} (a b : option A) : option A :=
  match a with
  | Some _ => a
  | None => b
  end.

(** [str || '']: [undefined] and the empty string both give ['']. *)
Definition or_empty (str : option jsstring) : jsstring :=
  match str with
  | Some s => s
  | None => []
  end.

(** The [while] loop of [lpad].  Each turn prepends [padString]; when it is
    not empty the loop ends within [len - |str|] turns, which is the fuel
    [lpad] gives it (see [lpad_exits]). *)
Fixpoint lpad_loop (fuel : nat) (str padString : jsstring) (len : nat) : jsstring :=
  match fuel with
  | O => str
  | S fuel' =>
      if (length str <? len)%nat
      then lpad_loop fuel' (padString ++ str) padString len
      else str
  end.

Definition lpad (str padString : jsstring) (len : nat) : jsstring :=
  lpad_loop (len - length str) str padString len.

Definition binaryToByte (bin : jsstring) : option Z := parseInt2 bin.

Definition bytesToBinary (bytes : list Z) : jsstring :=
  concat (map (fun x => lpad (toString2 x) (js "0") 8) bytes).

Definition salt (password : option jsstring) : jsstring :=
  js "mnemonic" ++ or_empty password.

(** [Buffer.from(numbers)]: a [NaN] entry is stored as 0. *)
Definition byte_of_entry (x : option Z) : byte :=
  match x with
  | Some z => byte_of_number z
  | None => x00
  end.

(** Lines 117-129: the loop over the bytes of the mnemonic.  The state is
    [(words, currentWord)]. *)
Definition split_step (st : list Buffer * list byte) (b : byte)
  : list Buffer * list byte :=
  let '(words, currentWord) := st in
  if (number_of_byte b =? 0x20) || (number_of_byte b =? 0x3000)
  then (words ++ [currentWord], [])
  else (words, currentWord ++ [b]).

Definition split_words (mnemonicAsBuffer : Buffer) : list Buffer :=
  let '(words, currentWord) := fold_left split_step mnemonicAsBuffer ([], []) in
  words ++ [currentWord].

(** The first word of the Japanese wordlist, as the source writes it:
    ['\u3042\u3044\u3053\u304f\u3057\u3093']. *)
Definition JAPANESE_FIRST_WORD : jsstring :=
  [0x3042; 0x3044; 0x3053; 0x304f; 0x3057; 0x3093].

Definition IDEOGRAPHIC_SPACE : jsstring := [0x3000].

Record write_state : Type := {
  workingBuffer : Buffer;
  offset : nat
}.

(** [every] with the element index as second argument. *)
Fixpoint every_from {A} (i : nat) (f : A -> nat -> bool) (l : list A) : bool :=
  match l with
  | [] => true
  | a :: l' => f a i && every_from (S i) f l'
  end.

(** Own string-keyed properties of an object, in [Object.keys] order.
    Properties inherited from [Object.prototype] are not part of it: [get]
    is [o[key]] for a key that is an own property, or that is no property
    name of [Object.prototype] (as "constructor" or "toString" are). *)
Definition object (A : Type) := list (jsstring * A).

Fixpoint get {A} (o : object A) (key : jsstring) : option A :=
  match o with
  | [] => None
  | (k, v) :: o' => if str_eqb k key then Some v else get o' key
  end.

Definition keys {A} (o : object A) : list jsstring := map fst o.

Section Bip39.
(** What the file imports. *)
(** [s.normalize('NFKD')] *)
Variable nfkd : jsstring -> jsstring.
(** [createHash('sha256').update(b).digest()] *)
Variable sha256 : Buffer -> Buffer.
(** [pbkdf2Sync(password, salt, iterations, keylen, digest)] *)
Variable pbkdf2Sync : Buffer -> Buffer -> Z -> Z -> jsstring -> Buffer.
(** [randomBytes(size)] *)
Variable randomBytes : Z -> result Buffer.

Definition normalize (str : option jsstring) : jsstring :=
  nfkd (or_empty str).

(** [ENT / 32] is a floating-point division; [slice] truncates its bound,
    which on the non-negative quotient is the integer division. *)
Definition deriveChecksumBits (entropyBuffer : Buffer) : jsstring :=
  let ENT := (length entropyBuffer * 8)%nat in
  let CS := (ENT / 32)%nat in
  let hash := sha256 entropyBuffer in
  slice_to (bytesToBinary (map number_of_byte hash)) CS.

Definition mnemonicToSeedSync (mnemonic : StringOrBuffer)
  (password : option jsstring) : Buffer :=
  let mnemonicBuffer :=
    match mnemonic with
    | IsString s => utf8_encode (normalize (Some s))
    | IsBuffer b => b
    end in
  let saltBuffer := utf8_encode (salt (Some (normalize password))) in
  pbkdf2Sync mnemonicBuffer saltBuffer 2048 64 (js "sha512").

Definition mnemonicToEntropy (DEFAULT_WORDLIST : option wordlist_t)
  (mnemonic : StringOrBuffer) (wordlist : option wordlist_t) : result jsstring :=
  match or_else wordlist DEFAULT_WORDLIST with
  | None => Throw (Error WORDLIST_REQUIRED)
  | Some wordlist =>
      let mnemonicAsBuffer :=
        match mnemonic with
        | IsString s => utf8_encode (normalize (Some s))
        | IsBuffer b => b
        end in
      let words := split_words mnemonicAsBuffer in
      if negb (length words mod 3 =? 0)%nat then Throw (Error INVALID_MNEMONIC)
      else
        chunks <- mapM (fun word : Buffer =>
                    let index := indexOf wordlist (utf8_decode word) in
                    if index =? -1 then Throw (Error INVALID_MNEMONIC)
                    else Ok (lpad (toString2 index) (js "0") 11)) words ;;
        let bits := concat chunks in
        let dividerIndex := (length bits / 33 * 32)%nat in
        let entropyBits := slice_to bits dividerIndex in
        let checksumBits := slice_from bits dividerIndex in
        matched <- non_null (str_match 8 entropyBits) ;;
        let entropyBytes := map binaryToByte matched in
        if (length entropyBytes <? 16)%nat then Throw (Error INVALID_ENTROPY)
        else if (32 <? length entropyBytes)%nat then Throw (Error INVALID_ENTROPY)
        else if negb (length entropyBytes mod 4 =? 0)%nat
        then Throw (Error INVALID_ENTROPY)
        else
          let entropy := map byte_of_entry entropyBytes in
          let newChecksum := deriveChecksumBits entropy in
          if negb (str_eqb newChecksum checksumBits)
          then Throw (Error INVALID_CHECKSUM)
          else Ok (toHex entropy)
  end.

(** Line 206, [wordlist = wordlist || []], changes nothing: [wordlist] is an
    array there.  The working buffer is the one object both [set] and
    [write] change; it is threaded through the second [reduce]. *)
Definition entropyToMnemonic (DEFAULT_WORDLIST : option wordlist_t)
  (entropy : StringOrBuffer) (wordlist : option wordlist_t) : result Buffer :=
  let entropy :=
    match entropy with
    | IsBuffer b => b
    | IsString s => fromHex s
    end in
  match or_else wordlist DEFAULT_WORDLIST with
  | None => Throw (Error WORDLIST_REQUIRED)
  | Some wordlist =>
      if (length entropy <? 16)%nat then Throw (TypeError INVALID_ENTROPY)
      else if (32 <? length entropy)%nat then Throw (TypeError INVALID_ENTROPY)
      else if negb (length entropy mod 4 =? 0)%nat
      then Throw (TypeError INVALID_ENTROPY)
      else
        let entropyBits := bytesToBinary (map number_of_byte entropy) in
        let checksumBits := deriveChecksumBits entropy in
        let bits := entropyBits ++ checksumBits in
        chunks <- non_null (str_match 11 bits) ;;
        let wordsAsBuffers :=
          map (fun binary : jsstring =>
                 let index := binaryToByte binary in
                 utf8_encode (normalize (array_get wordlist index))) chunks in
        let separator :=
          match nth_error wordlist 0 with
          | Some w => if str_eqb w JAPANESE_FIRST_WORD
                      then IDEOGRAPHIC_SPACE else js " "
          | None => js " "
          end in
        let separatorByteLength := length (utf8_encode separator) in
        let bufferSize :=
          reduce (fun (currentBufferSize : nat) (wordAsBuffer : Buffer) (i : nat) =>
                    let shouldAddSeparator := (i <? length wordsAsBuffers - 1)%nat in
                    (currentBufferSize + length wordAsBuffer +
                     (if shouldAddSeparator then separatorByteLength else 0))%nat)
                 wordsAsBuffers 0%nat in
        final <-
          reduce (fun (acc : result write_state) (wordAsBuffer : Buffer) (i : nat) =>
                    st <- acc ;;
                    let shouldAddSeparator := (i <? length wordsAsBuffers - 1)%nat in
                    wb <- buffer_set (workingBuffer st) wordAsBuffer (offset st) ;;
                    wb' <- (if shouldAddSeparator
                            then buffer_write wb separator
                                   (offset st + length wordAsBuffer) separatorByteLength
                            else Ok wb) ;;
                    Ok {| workingBuffer := wb';
                          offset := (offset st + length wordAsBuffer +
                                     (if shouldAddSeparator
                                      then separatorByteLength else 0))%nat |})
                 wordsAsBuffers
                 (Ok {| workingBuffer := buffer_alloc bufferSize; offset := 0%nat |}) ;;
        Ok (workingBuffer final)
  end.

(** The first component lists the sizes [rng] was called with, in order.
    [strength] is an integer here ([%] takes the sign of the dividend, and
    [strength / 8] is exact when 32 divides it); a strength that is not an
    integer is outside the embedding. *)
Definition generateMnemonic (DEFAULT_WORDLIST : option wordlist_t)
  (strength : option Z) (rng : option (Z -> result Buffer))
  (wordlist : option wordlist_t) : list Z * result Buffer :=
  let strength :=
    match strength with
    | Some s => if s =? 0 then 128 else s
    | None => 128
    end in
  if negb (Z.rem strength 32 =? 0) then ([], Throw (TypeError INVALID_ENTROPY))
  else
    let rng := match rng with Some r => r | None => randomBytes end in
    ([strength / 8],
     bytes <- rng (strength / 8) ;;
     entropyToMnemonic DEFAULT_WORDLIST (IsBuffer bytes) wordlist).

Definition validateMnemonic (DEFAULT_WORDLIST : option wordlist_t)
  (mnemonic : jsstring) (wordlist : option wordlist_t) : bool :=
  match mnemonicToEntropy DEFAULT_WORDLIST (IsString mnemonic) wordlist with
  | Ok _ => true
  | Throw _ => false
  end.

End Bip39.

(** [setDefaultWordlist] returns the new value of [DEFAULT_WORDLIST]. *)
Definition setDefaultWordlist (wordlists : object wordlist_t) (language : jsstring)
  : result (option wordlist_t) :=
  match get wordlists language with
  | Some result => Ok (Some result)
  | None =>
      Throw (Error (js "Could not find wordlist for language " ++ [34] ++
                    language ++ [34]))
  end.

(** The result is [None] when the filtered array is empty ([undefined]). *)
Definition getDefaultWordlist (wordlists : object wordlist_t)
  (DEFAULT_WORDLIST : option wordlist_t) : result (option jsstring) :=
  match DEFAULT_WORDLIST with
  | None => Throw (Error (js "No Default Wordlist set"))
  | Some dflt =>
      Ok (hd_error
            (filter (fun lang : jsstring =>
                       if str_eqb lang (js "JA") || str_eqb lang (js "EN") then false
                       else
                         match get wordlists lang with
                         | Some wl =>
                             every_from 0
                               (fun (word : jsstring) (index : nat) =>
                                  match nth_error dflt index with
                                  | Some w => str_eqb word w
                                  | None => false
                                  end) wl
                         | None => false
                         end)
                    (keys wordlists)))
  end.

(* ================================================================= *)
(** ** Reference instances of the imports

    The properties below hold for every [nfkd], [sha256], [pbkdf2Sync] and
    [randomBytes] (under the hypotheses they state).  To run the embedding on
    concrete inputs, [create-hash]'s ['sha256'] is instantiated by SHA-256
    as FIPS 180-4 defines it. *)

Module SHA256.

Definition w32 (x : Z) : Z := x mod 4294967296.

Definition rotr (n x : Z) : Z :=
  Z.lor (Z.shiftr x n) (w32 (Z.shiftl x (32 - n))).

Definition Ch (x y z : Z) : Z :=
  Z.lxor (Z.land x y) (Z.land (Z.lxor x 0xffffffff) z).

Definition Maj (x y z : Z) : Z :=
  Z.lxor (Z.lxor (Z.land x y) (Z.land x z)) (Z.land y z).

Definition Sigma0 (x : Z) : Z := Z.lxor (Z.lxor (rotr 2 x) (rotr 13 x)) (rotr 22 x).
Definition Sigma1 (x : Z) : Z := Z.lxor (Z.lxor (rotr 6 x) (rotr 11 x)) (rotr 25 x).
Definition sigma0 (x : Z) : Z := Z.lxor (Z.lxor (rotr 7 x) (rotr 18 x)) (Z.shiftr x 3).
Definition sigma1 (x : Z) : Z := Z.lxor (Z.lxor (rotr 17 x) (rotr 19 x)) (Z.shiftr x 10).

(** The round constants are the first 32 bits of the fractional parts of
    the cube roots of the first 64 primes, and the initial state those of
    the square roots of the first 8 (FIPS 180-4, 4.2.2 and 5.3.3). *)
Definition is_prime (n : nat) : bool :=
  forallb (fun d => negb (n mod d =? 0)%nat) (seq 2 (n - 2)).

Definition primes : list Z := map Z.of_nat (filter is_prime (seq 2 310)).

(** The integer cube root of [n], built bit by bit under [2 ^ bits]. *)
Fixpoint cube_root (bits : nat) (n r : Z) : Z :=
  match bits with
  | O => r
  | S b =>
      let r' := r + 2 ^ Z.of_nat b in
      cube_root b n (if r' * r' * r' <=? n then r' else r)
  end.

Definition K : list Z :=
  Eval vm_compute in map (fun p => w32 (cube_root 40 (p * 2 ^ 96) 0)) primes.

Definition state : Type := (Z * Z * Z * Z * Z * Z * Z * Z)%type.

Definition H0 : state :=
  Eval vm_compute in
    let h := fun i => w32 (Z.sqrt (nth i primes 0 * 2 ^ 64)) in
    (h 0%nat, h 1%nat, h 2%nat, h 3%nat, h 4%nat, h 5%nat, h 6%nat, h 7%nat).

(** The message with its padding: a one bit, zeros, and the length in bits
    on eight bytes. *)
Definition pad (msg : list Z) : list Z :=
  let l := Z.of_nat (length msg) in
  msg ++ [0x80] ++ repeat 0 (Z.to_nat ((55 - l) mod 64)) ++
  map (fun i => (8 * l / 2 ^ (8 * i)) mod 256) [7; 6; 5; 4; 3; 2; 1; 0].

Fixpoint words_of (n : nat) (bs : list Z) : list Z :=
  match n, bs with
  | S n', b3 :: b2 :: b1 :: b0 :: bs' =>
      (((b3 * 256 + b2) * 256 + b1) * 256 + b0) :: words_of n' bs'
  | _, _ => []
  end.

(** The schedule is built most recent word first: [rw] holds
    [W(t-1); W(t-2); ...]. *)
Fixpoint extend (n : nat) (rw : list Z) : list Z :=
  match n with
  | O => rw
  | S n' =>
      let w := w32 (sigma1 (nth 1 rw 0) + nth 6 rw 0 + sigma0 (nth 14 rw 0) + nth 15 rw 0) in
      extend n' (w :: rw)
  end.

Definition schedule (block : list Z) : list Z :=
  rev (extend 48 (rev (words_of 16 block))).

Definition round (st : state) (kw : Z * Z) : state :=
  let '(a, b, c, d, e, f, g, h) := st in
  let t1 := w32 (h + Sigma1 e + Ch e f g + fst kw + snd kw) in
  let t2 := w32 (Sigma0 a + Maj a b c) in
  (w32 (t1 + t2), a, b, c, w32 (d + t1), e, f, g).

Definition compress (st : state) (block : list Z) : state :=
  let '(a, b, c, d, e, f, g, h) := st in
  let '(a', b', c', d', e', f', g', h') :=
    fold_left round (combine K (schedule block)) st in
  (w32 (a + a'), w32 (b + b'), w32 (c + c'), w32 (d + d'),
   w32 (e + e'), w32 (f + f'), w32 (g + g'), w32 (h + h')).

Fixpoint blocks (n : nat) (bs : list Z) : list (list Z) :=
  match n with
  | O => []
  | S n' => firstn 64 bs :: blocks n' (skipn 64 bs)
  end.

Definition word_bytes (w : Z) : list byte :=
  [byte_of_number (w / 16777216); byte_of_number (w / 65536);
   byte_of_number (w / 256); byte_of_number w].

Definition digest (msg : Buffer) : Buffer :=
  let padded := pad (map number_of_byte msg) in
  let '(a, b, c, d, e, f, g, h) :=
    fold_left compress (blocks (length padded / 64) padded) H0 in
  word_bytes a ++ word_bytes b ++ word_bytes c ++ word_bytes d ++
  word_bytes e ++ word_bytes f ++ word_bytes g ++ word_bytes h.

End SHA256.

(** Concrete inputs for the examples. *)
Module Sample.

(** NFKD on the strings the examples use (ASCII, unvoiced hiragana, the
    ideographic space, an unpaired surrogate): U+3000 decomposes to U+0020,
    the rest is unchanged. *)
Definition nfkd_basic (s : jsstring) : jsstring :=
  map (fun c => if c =? 0x3000 then 0x20 else c) s.

Definition word (i : nat) : jsstring := js "w" ++ toString2 (Z.of_nat i).

(** 2048 distinct ASCII words; the first four are those of the English
    wordlist. *)
Definition english_like : wordlist_t :=
  [js "abandon"; js "ability"; js "able"; js "about"] ++ map word (seq 4 2044).

(** 2048 distinct words, the first being the Japanese first word. *)
Definition japanese_like : wordlist_t :=
  JAPANESE_FIRST_WORD :: map word (seq 1 2047).

(** The first word of the Japanese wordlist as the specification spells
    it: its fourth character is U+3046 where the source has U+304F. *)
Definition spec_japanese_first_word : jsstring :=
  [0x3042; 0x3044; 0x3053; 0x3046; 0x3057; 0x3093].

Definition spec_japanese_like : wordlist_t :=
  spec_japanese_first_word :: map word (seq 1 2047).

(** [english_like] with its second word replaced by a copy of the first. *)
Definition with_duplicate : wordlist_t :=
  js "abandon" :: js "abandon" :: skipn 2 english_like.

(** [english_like] with a second word that holds a space, and with one
    that is an unpaired surrogate (which UTF-8 cannot encode). *)
Definition with_space : wordlist_t :=
  js "abandon" :: js "a b" :: skipn 2 english_like.

Definition with_unpaired_surrogate : wordlist_t :=
  js "abandon" :: [0xD800] :: skipn 2 english_like.

Definition zeros16 : Buffer := repeat x00 16.
Definition zeros15 : Buffer := repeat x00 15.

(** Twenty bytes of entropy; its first eleven bits are 00000000001. *)
Definition entropy20 : Buffer := x00 :: x20 :: repeat x7f 18.

(** An [rng] that returns [size] zero bytes. *)
Definition zero_rng (size : Z) : result Buffer := Ok (repeat x00 (Z.to_nat size)).

(** A registry in which "spanish" and "ES" name the same wordlist, as
    "japanese"/"JA" and "english"/"EN" do in [./_wordlists]. *)
Definition aliased_registry : object wordlist_t :=
  [(js "spanish", english_like); (js "ES", english_like)].

Definition plain_registry : object wordlist_t :=
  [(js "EN", english_like); (js "JA", japanese_like); (js "ES", english_like)].

End Sample.

(* ================================================================= *)
(** ** Specification-side definitions

    These say what the code is expected to compute; the theorems compare
    them with the embedding above. *)

(** Consecutive groups of [k] units; the last one may be shorter. *)
Fixpoint chunks_fuel (fuel k : nat) (s : jsstring) : list jsstring :=
  match fuel with
  | O => []
  | S fuel' =>
      match s with
      | [] => []
      | _ => firstn k s :: chunks_fuel fuel' k (skipn k s)
      end
  end.

Definition chunks_of (k : nat) (s : jsstring) : list jsstring :=
  chunks_fuel (length s) k s.

(** The words with [sep] between each two of them. *)
Fixpoint join_with (sep : Buffer) (words : list Buffer) : Buffer :=
  match words with
  | [] => []
  | [w] => w
  | w :: rest => w ++ sep ++ join_with sep rest
  end.

(** The eight bits of a byte, most significant first, as characters. *)
Definition bits_of_byte (b : byte) : jsstring :=
  map (fun i => if Z.testbit (number_of_byte b) i then c1 else c0)
      [7; 6; 5; 4; 3; 2; 1; 0].

Definition binary_expansion (bs : Buffer) : jsstring :=
  concat (map bits_of_byte bs).

(** The checksum: the first [ENT / 32] bits of the hash of the entropy. *)
Definition checksum_bits (sha256 : Buffer -> Buffer) (E : Buffer) : jsstring :=
  firstn (length E * 8 / 32) (binary_expansion (sha256 E)).

(** Entropy followed by checksum. *)
Definition mnemonic_bits (sha256 : Buffer -> Buffer) (E : Buffer) : jsstring :=
  binary_expansion E ++ checksum_bits sha256 E.

(** The value of a group of bits, as a position in the wordlist. *)
Definition word_index (chunk : jsstring) : nat := Z.to_nat (parse_bits 0 chunk).

(** The words of the mnemonic of [E]: for each group of eleven bits the
    word at that position (the empty string past the end of the list),
    NFKD-normalised and UTF-8 encoded. *)
Definition mnemonic_words (nfkd : jsstring -> jsstring) (sha256 : Buffer -> Buffer)
  (W : wordlist_t) (E : Buffer) : list Buffer :=
  map (fun chunk => utf8_encode (nfkd (nth (word_index chunk) W [])))
      (chunks_of 11 (mnemonic_bits sha256 E)).

(** The separator [entropyToMnemonic] picks for a wordlist. *)
Definition separator_for (W : wordlist_t) : jsstring :=
  match W with
  | w :: _ => if str_eqb w JAPANESE_FIRST_WORD then IDEOGRAPHIC_SPACE else js " "
  | [] => js " "
  end.

(** What a wordlist must satisfy for its words to be read back: each word
    survives normalisation followed by UTF-8 encoding and decoding, and its
    encoding holds no space. *)
Definition readable_word (nfkd : jsstring -> jsstring) (w : jsstring) : Prop :=
  utf8_decode (utf8_encode (nfkd w)) = w /\ ~ In x20 (utf8_encode (nfkd w)).

(** Executable forms of [readable_word] and [NoDup], for concrete wordlists. *)
Definition readable_wordb (nfkd : jsstring -> jsstring) (w : jsstring) : bool :=
  str_eqb (utf8_decode (utf8_encode (nfkd w))) w &&
  negb (existsb (Byte.eqb x20) (utf8_encode (nfkd w))).

Fixpoint distinct_words (l : wordlist_t) : bool :=
  match l with
  | [] => true
  | w :: l' => negb (existsb (str_eqb w) l') && distinct_words l'
  end.

(** [wl] agrees with [dflt] at every index of [wl]. *)
Definition is_prefix (wl dflt : wordlist_t) : Prop :=
  exists rest, dflt = wl ++ rest.

(** A language [getDefaultWordlist] may answer: it is neither "JA" nor "EN"
    and its registered wordlist agrees with the default at every index of
    that wordlist. *)
Definition candidate (wordlists : object wordlist_t) (dflt : wordlist_t)
  (lang : jsstring) : Prop :=
  lang <> js "JA" /\ lang <> js "EN" /\
  exists wl, get wordlists lang = Some wl /\ is_prefix wl dflt.

(** The [rng] that [generateMnemonic] calls. *)
Definition rng_used (randomBytes : Z -> result Buffer)
  (rng : option (Z -> result Buffer)) : Z -> result Buffer :=
  match rng with
  | Some r => r
  | None => randomBytes
  end.

(** A string of ['0'] and ['1']. *)
Definition bit_string (s : jsstring) : Prop := Forall (fun c => is_bit c = true) s.

(** A string that [.] matches at every position. *)
Definition no_line_terminator (s : jsstring) : Prop :=
  Forall (fun c => is_line_terminator c = false) s.

(** The lengths, in bytes, that the entropy may have. *)
Definition valid_entropy_length (n : nat) : Prop :=
  n = 16%nat \/ n = 20%nat \/ n = 24%nat \/ n = 28%nat \/ n = 32%nat.

(* ================================================================= *)
(** ** Strings, bytes and numbers *)

Lemma str_eqb_refl (a : jsstring) : str_eqb a a = true.
Proof.
  induction a as [|x a IH]; simpl; [reflexivity|].
  now rewrite Z.eqb_refl.
Qed.

Lemma str_eqb_eq (a b : jsstring) : str_eqb a b = true <-> a = b.
Proof.
  split.
  - revert b; induction a as [|x a IH]; intros [|y b]; simpl; try discriminate.
    + reflexivity.
    + intros E. apply andb_true_iff in E as [E1 E2].
      apply Z.eqb_eq in E1. apply IH in E2. now subst.
  - intros ->. apply str_eqb_refl.
Qed.

Lemma str_eqb_neq (a b : jsstring) : a <> b -> str_eqb a b = false.
Proof.
  intros N. destruct (str_eqb a b) eqn:E; [|reflexivity].
  apply str_eqb_eq in E. contradiction.
Qed.

Lemma number_of_byte_range (b : byte) : 0 <= number_of_byte b < 256.
Proof.
  unfold number_of_byte. pose proof (Byte.to_N_bounded b). lia.
Qed.

Lemma byte_of_number_of_byte (b : byte) : byte_of_number (number_of_byte b) = b.
Proof.
  unfold byte_of_number. pose proof (number_of_byte_range b) as R.
  rewrite Z.mod_small by exact R.
  unfold number_of_byte. rewrite N2Z.id, Byte.of_to_N. reflexivity.
Qed.

(** A byte is never equal to 0x3000. *)
Lemma byte_is_not_0x3000 (b : byte) : (number_of_byte b =? 0x3000) = false.
Proof.
  apply Z.eqb_neq. pose proof (number_of_byte_range b). lia.
Qed.

Lemma number_of_byte_x20 (b : byte) : number_of_byte b = 0x20 <-> b = x20.
Proof.
  split.
  - intros E. rewrite <- (byte_of_number_of_byte b), E. reflexivity.
  - intros ->. reflexivity.
Qed.

(* ----------------------------------------------------------------- *)
(** *** [lpad] *)

Lemma repeat_snoc {A} (x : A) (n : nat) : repeat x n ++ [x] = x :: repeat x n.
Proof.
  induction n as [|n IH]; simpl; [reflexivity|]. now rewrite IH.
Qed.

Lemma lpad_loop_zero (len fuel : nat) (str : jsstring) :
  fuel = (len - length str)%nat ->
  lpad_loop fuel str (js "0") len = repeat c0 (len - length str) ++ str.
Proof.
  revert str; induction fuel as [|fuel IH]; intros str E; simpl.
  - now rewrite <- E.
  - destruct (Nat.ltb_spec (length str) len) as [L|L]; [|lia].
    change (js "0" ++ str) with (c0 :: str).
    rewrite IH by (simpl; lia). simpl length.
    replace (len - length str)%nat with (S (len - S (length str))) by lia.
    simpl repeat. rewrite <- repeat_snoc, <- app_assoc. reflexivity.
Qed.

Lemma lpad_zero (str : jsstring) (len : nat) :
  lpad str (js "0") len = repeat c0 (len - length str) ++ str.
Proof. apply lpad_loop_zero. reflexivity. Qed.

Lemma lpad_loop_length (padString : jsstring) (len fuel : nat) (str : jsstring) :
  padString <> [] -> (len - length str <= fuel)%nat ->
  (len <= length (lpad_loop fuel str padString len))%nat.
Proof.
  intros NE. revert str; induction fuel as [|fuel IH]; intros str F; simpl.
  - lia.
  - destruct (Nat.ltb_spec (length str) len) as [L|L]; [|lia].
    apply IH. rewrite length_app.
    destruct padString; [contradiction|simpl; lia].
Qed.

(** The fuel [lpad] gives its loop is enough: on exit the loop condition
    [str.length < length] is false. *)
Lemma lpad_exits (str padString : jsstring) (len : nat) :
  padString <> [] -> (len <= length (lpad str padString len))%nat.
Proof. intros NE. apply lpad_loop_length; [exact NE|lia]. Qed.

(* ----------------------------------------------------------------- *)
(** *** Strings of binary digits *)

Lemma is_bit_cases (c : Z) : is_bit c = true -> c = c0 \/ c = c1.
Proof.
  unfold is_bit. intros E. apply orb_true_iff in E as [E|E];
    apply Z.eqb_eq in E; auto.
Qed.

Lemma bit_string_app (s t : jsstring) :
  bit_string (s ++ t) <-> bit_string s /\ bit_string t.
Proof. apply Forall_app. Qed.

Lemma bit_string_repeat (n : nat) : bit_string (repeat c0 n).
Proof.
  induction n as [|n IH]; simpl; constructor; [reflexivity|exact IH].
Qed.

Lemma bit_string_pos (p : positive) : bit_string (pos_toString2 p).
Proof.
  induction p as [q IH|q IH|]; simpl.
  - apply bit_string_app. split; [exact IH|]. repeat constructor.
  - apply bit_string_app. split; [exact IH|]. repeat constructor.
  - repeat constructor.
Qed.

Lemma bit_string_toString2 (z : Z) : 0 <= z -> bit_string (toString2 z).
Proof.
  destruct z as [|p|p]; simpl; intros Hz.
  - repeat constructor.
  - apply bit_string_pos.
  - lia.
Qed.

Lemma bit_string_concat (l : list jsstring) :
  Forall bit_string l -> bit_string (concat l).
Proof.
  induction 1 as [|s l Hs _ IH]; simpl; [constructor|].
  apply bit_string_app. now split.
Qed.

Lemma bit_string_firstn (n : nat) (s : jsstring) :
  bit_string s -> bit_string (firstn n s).
Proof.
  intros Hs. rewrite <- (firstn_skipn n s) in Hs.
  now apply bit_string_app in Hs.
Qed.

Lemma bit_string_skipn (n : nat) (s : jsstring) :
  bit_string s -> bit_string (skipn n s).
Proof.
  intros Hs. rewrite <- (firstn_skipn n s) in Hs.
  now apply bit_string_app in Hs.
Qed.

Lemma parse_bits_app (s t : jsstring) (acc : Z) :
  bit_string s -> parse_bits acc (s ++ t) = parse_bits (parse_bits acc s) t.
Proof.
  intros Hs. revert acc. induction Hs as [|c s Hc _ IH]; intros acc; simpl.
  - reflexivity.
  - rewrite Hc. apply IH.
Qed.

Lemma parse_bits_snoc (s : jsstring) (c : Z) :
  bit_string s -> is_bit c = true ->
  parse_bits 0 (s ++ [c]) = 2 * parse_bits 0 s + (c - c0).
Proof.
  intros Hs Hc. rewrite parse_bits_app by exact Hs. simpl. now rewrite Hc.
Qed.

Lemma parse_bits_pos (p : positive) : parse_bits 0 (pos_toString2 p) = Z.pos p.
Proof.
  induction p as [q IH|q IH|]; simpl.
  - rewrite parse_bits_snoc by (auto using bit_string_pos). rewrite IH. reflexivity.
  - rewrite parse_bits_snoc by (auto using bit_string_pos). rewrite IH. reflexivity.
  - reflexivity.
Qed.

Lemma parse_bits_toString2 (z : Z) : 0 <= z -> parse_bits 0 (toString2 z) = z.
Proof.
  destruct z as [|p|p]; simpl; intros Hz.
  - reflexivity.
  - apply parse_bits_pos.
  - lia.
Qed.

Lemma parse_bits_bounds (s : jsstring) (acc : Z) :
  bit_string s -> 0 <= acc ->
  acc * 2 ^ Z.of_nat (length s) <= parse_bits acc s
    < (acc + 1) * 2 ^ Z.of_nat (length s).
Proof.
  intros Hs. revert acc. induction Hs as [|c s Hc _ IH]; intros acc Ha.
  - simpl. lia.
  - cbn [parse_bits length]. rewrite Hc.
    rewrite Nat2Z.inj_succ, Z.pow_succ_r by lia.
    assert (Hb : 0 <= c - c0 <= 1)
      by (destruct (is_bit_cases c Hc) as [-> | ->]; unfold c0, c1; lia).
    specialize (IH (2 * acc + (c - c0)) ltac:(lia)).
    assert (0 < 2 ^ Z.of_nat (length s)) by (apply Z.pow_pos_nonneg; lia).
    nia.
Qed.

Lemma parse_bits_range (s : jsstring) :
  bit_string s -> 0 <= parse_bits 0 s < 2 ^ Z.of_nat (length s).
Proof.
  intros Hs. pose proof (parse_bits_bounds s 0 Hs ltac:(lia)). lia.
Qed.

(** A non-empty string of binary digits is its value written in base 2,
    after some zeros. *)
Lemma toString2_parse_bits (s : jsstring) :
  bit_string s -> s <> [] ->
  exists k, s = repeat c0 k ++ toString2 (parse_bits 0 s).
Proof.
  induction s as [|c s IH] using rev_ind; intros Hs NE; [contradiction|].
  apply bit_string_app in Hs as [Hs Hc].
  assert (Hc' : is_bit c = true) by now inversion Hc.
  rewrite parse_bits_snoc by assumption.
  destruct s as [|d s].
  - exists 0%nat. simpl.
    destruct (is_bit_cases c Hc') as [-> | ->]; reflexivity.
  - destruct (IH Hs ltac:(discriminate)) as [k Ek].
    pose proof (parse_bits_range _ Hs) as R.
    remember (parse_bits 0 (d :: s)) as v eqn:Ev.
    destruct v as [|p|p]; [| |lia].
    + exists (S k). rewrite Ek. simpl toString2.
      change [c0] with (repeat c0 1). rewrite <- repeat_app.
      replace (k + 1)%nat with (S k) by lia.
      destruct (is_bit_cases c Hc') as [-> | ->]; reflexivity.
    + exists k. rewrite Ek, <- app_assoc. f_equal.
      destruct (is_bit_cases c Hc') as [-> | ->]; reflexivity.
Qed.

Lemma lpad_toString2_parse_bits (s : jsstring) :
  bit_string s -> s <> [] ->
  lpad (toString2 (parse_bits 0 s)) (js "0") (length s) = s.
Proof.
  intros Hs NE. destruct (toString2_parse_bits s Hs NE) as [k Ek].
  remember (parse_bits 0 s) as v eqn:Ev. clear Ev.
  assert (L : length s = (k + length (toString2 v))%nat)
    by (rewrite Ek, length_app, repeat_length; reflexivity).
  rewrite lpad_zero, L.
  replace (k + length (toString2 v) - length (toString2 v))%nat with k by lia.
  symmetry. exact Ek.
Qed.

Lemma parseInt2_bit_string (s : jsstring) :
  bit_string s -> s <> [] -> parseInt2 s = Some (parse_bits 0 s).
Proof.
  intros Hs NE. destruct s as [|c s]; [contradiction|].
  assert (Hc : is_bit c = true) by now inversion Hs.
  unfold parseInt2.
  assert (W : skip_white_space (c :: s) = c :: s)
    by (destruct (is_bit_cases c Hc) as [-> | ->]; reflexivity).
  rewrite W.
  destruct (is_bit_cases c Hc) as [-> | ->]; cbn; f_equal;
    destruct (parse_bits _ s); reflexivity.
Qed.

(* ----------------------------------------------------------------- *)
(** *** Bytes as eight binary digits *)

Lemma lpad_toString2_byte (b : byte) :
  lpad (toString2 (number_of_byte b)) (js "0") 8 = bits_of_byte b.
Proof. destruct b; reflexivity. Qed.

Lemma binaryToByte_bits_of_byte (b : byte) :
  binaryToByte (bits_of_byte b) = Some (number_of_byte b).
Proof. destruct b; reflexivity. Qed.

Lemma length_bits_of_byte (b : byte) : length (bits_of_byte b) = 8%nat.
Proof. reflexivity. Qed.

Lemma bit_string_bits_of_byte (b : byte) : bit_string (bits_of_byte b).
Proof.
  unfold bits_of_byte, bit_string. apply Forall_map, Forall_forall.
  intros i _. destruct (Z.testbit _ i); reflexivity.
Qed.

Lemma bytesToBinary_binary_expansion (bs : Buffer) :
  bytesToBinary (map number_of_byte bs) = binary_expansion bs.
Proof.
  unfold bytesToBinary, binary_expansion. rewrite map_map. f_equal.
  apply map_ext. intros b. apply lpad_toString2_byte.
Qed.

Lemma length_binary_expansion (bs : Buffer) :
  length (binary_expansion bs) = (8 * length bs)%nat.
Proof.
  unfold binary_expansion. induction bs as [|b bs IH]; simpl; [reflexivity|].
  rewrite IH. lia.
Qed.

Lemma bit_string_binary_expansion (bs : Buffer) : bit_string (binary_expansion bs).
Proof.
  apply bit_string_concat, Forall_map, Forall_forall.
  intros b _. apply bit_string_bits_of_byte.
Qed.

(* ----------------------------------------------------------------- *)
(** *** The regular expression [/(.{1,k})/g] *)

Lemma bit_string_no_line_terminator (s : jsstring) :
  bit_string s -> no_line_terminator s.
Proof.
  apply Forall_impl. intros c Hc.
  destruct (is_bit_cases c Hc) as [-> | ->]; reflexivity.
Qed.

Lemma match_dot_fill (k : nat) (s : jsstring) :
  no_line_terminator s ->
  forall room cur,
    match_dot k room cur s = match_dot k 0 (cur ++ firstn room s) (skipn room s).
Proof.
  induction 1 as [|c s Hc _ IH]; intros room cur.
  - rewrite firstn_nil, skipn_nil, app_nil_r. reflexivity.
  - destruct room as [|r].
    + rewrite firstn_0, skipn_0, app_nil_r. reflexivity.
    + cbn [match_dot firstn skipn]. rewrite Hc, IH, <- app_assoc. reflexivity.
Qed.

Lemma match_dot_full (k : nat) (cur s : jsstring) :
  (1 <= k)%nat -> no_line_terminator s ->
  match_dot k 0 cur s = flush cur ++ match_dot k k [] s.
Proof.
  intros Hk Hs. destruct Hs as [|c s Hc Hs].
  - simpl. now rewrite app_nil_r.
  - destruct k as [|r]; [lia|].
    cbn [match_dot]. rewrite Hc. replace (S r - 1)%nat with r by lia.
    reflexivity.
Qed.

Lemma no_line_terminator_skipn (n : nat) (s : jsstring) :
  no_line_terminator s -> no_line_terminator (skipn n s).
Proof.
  intros Hs. unfold no_line_terminator in *.
  rewrite <- (firstn_skipn n s) in Hs. now apply Forall_app in Hs.
Qed.

(** One step of the global match: the first [k] units, then the rest. *)
Lemma match_dot_step (k : nat) (s : jsstring) :
  (1 <= k)%nat -> no_line_terminator s ->
  match_dot k k [] s = flush (firstn k s) ++ match_dot k k [] (skipn k s).
Proof.
  intros Hk Hs. rewrite (match_dot_fill k s Hs k []). simpl app.
  apply match_dot_full; [exact Hk|]. now apply no_line_terminator_skipn.
Qed.

Lemma match_dot_chunks_fuel (k fuel : nat) (s : jsstring) :
  (1 <= k)%nat -> no_line_terminator s -> (length s <= fuel)%nat ->
  match_dot k k [] s = chunks_fuel fuel k s.
Proof.
  intros Hk. revert s. induction fuel as [|fuel IH]; intros s Hs L.
  - destruct s; [reflexivity|simpl in L; lia].
  - destruct s as [|c s]; [reflexivity|].
    rewrite match_dot_step by assumption.
    cbn [chunks_fuel]. rewrite <- IH.
    + destruct k; [lia|]. reflexivity.
    + now apply no_line_terminator_skipn.
    + rewrite length_skipn. cbn [length] in *. lia.
Qed.

Lemma match_dot_chunks_of (k : nat) (s : jsstring) :
  (1 <= k)%nat -> no_line_terminator s -> match_dot k k [] s = chunks_of k s.
Proof.
  intros Hk Hs. apply match_dot_chunks_fuel; auto.
Qed.

(** On a non-empty string without line terminators, [match] returns the
    consecutive groups of [k] units. *)
Lemma str_match_chunks_of (k : nat) (s : jsstring) :
  (1 <= k)%nat -> no_line_terminator s -> s <> [] ->
  str_match k s = Some (chunks_of k s).
Proof.
  intros Hk Hs NE. unfold str_match. rewrite match_dot_chunks_of by assumption.
  destruct s as [|c s]; [contradiction|]. reflexivity.
Qed.

Lemma chunks_fuel_concat (k fuel : nat) (s : jsstring) :
  (1 <= k)%nat -> (length s <= fuel)%nat -> concat (chunks_fuel fuel k s) = s.
Proof.
  intros Hk. revert s. induction fuel as [|fuel IH]; intros s L.
  - destruct s; [reflexivity|simpl in L; lia].
  - destruct s as [|c s]; [reflexivity|].
    cbn [chunks_fuel concat]. rewrite IH.
    + apply firstn_skipn.
    + rewrite length_skipn. cbn [length] in *. lia.
Qed.

Lemma chunks_of_concat (k : nat) (s : jsstring) :
  (1 <= k)%nat -> concat (chunks_of k s) = s.
Proof. intros Hk. apply chunks_fuel_concat; auto. Qed.

Lemma chunks_fuel_exact (k m : nat) :
  (1 <= k)%nat ->
  forall fuel s, length s = (k * m)%nat -> (length s <= fuel)%nat ->
    Forall (fun c => length c = k) (chunks_fuel fuel k s) /\
    length (chunks_fuel fuel k s) = m.
Proof.
  intros Hk. induction m as [|m IH]; intros fuel s L F.
  - assert (s = []) by (destruct s; [reflexivity|simpl in L; lia]). subst s.
    destruct fuel; simpl; auto.
  - destruct fuel as [|fuel]; [lia|].
    destruct s as [|c s]; [simpl in L; lia|].
    cbn [chunks_fuel].
    destruct (IH fuel (skipn k (c :: s))) as [H1 H2].
    + rewrite length_skipn. lia.
    + rewrite length_skipn. cbn [length] in *. lia.
    + split.
      * constructor; [|exact H1]. rewrite length_firstn. lia.
      * simpl. now rewrite H2.
Qed.

Lemma chunks_of_exact (k m : nat) (s : jsstring) :
  (1 <= k)%nat -> length s = (k * m)%nat ->
  Forall (fun c => length c = k) (chunks_of k s) /\ length (chunks_of k s) = m.
Proof. intros Hk L. apply chunks_fuel_exact; auto. Qed.

Lemma chunks_fuel_bit_string (k fuel : nat) (s : jsstring) :
  bit_string s -> Forall bit_string (chunks_fuel fuel k s).
Proof.
  revert s. induction fuel as [|fuel IH]; intros s Hs; simpl; [constructor|].
  destruct s as [|c s]; constructor.
  - now apply bit_string_firstn.
  - apply IH. now apply bit_string_skipn.
Qed.

Lemma chunks_of_bit_string (k : nat) (s : jsstring) :
  bit_string s -> Forall bit_string (chunks_of k s).
Proof. apply chunks_fuel_bit_string. Qed.

(** Groups of exactly [k] units are recovered from their concatenation. *)
Lemma chunks_fuel_blocks (k : nat) (blocks : list jsstring) :
  (1 <= k)%nat -> Forall (fun b => length b = k) blocks ->
  forall fuel, (length (concat blocks) <= fuel)%nat ->
    chunks_fuel fuel k (concat blocks) = blocks.
Proof.
  intros Hk. induction 1 as [|b blocks Hb _ IH]; intros fuel F.
  - destruct fuel; reflexivity.
  - simpl in F. rewrite length_app in F.
    destruct fuel as [|fuel]; [lia|].
    cbn [concat chunks_fuel].
    destruct (b ++ concat blocks) eqn:E.
    + apply (f_equal (@length Z)) in E. rewrite length_app in E. simpl in E. lia.
    + rewrite <- E.
      rewrite firstn_app, skipn_app, Hb, Nat.sub_diag.
      rewrite <- Hb at 1. rewrite firstn_all.
      rewrite <- Hb at 2. rewrite skipn_all. simpl.
      rewrite app_nil_r, IH by lia. reflexivity.
Qed.

Lemma chunks_of_blocks (k : nat) (blocks : list jsstring) :
  (1 <= k)%nat -> Forall (fun b => length b = k) blocks ->
  chunks_of k (concat blocks) = blocks.
Proof. intros Hk Hb. apply chunks_fuel_blocks; auto. Qed.

Lemma chunks_fuel_nonempty (k fuel : nat) (s : jsstring) :
  (1 <= k)%nat -> Forall (fun c => c <> []) (chunks_fuel fuel k s).
Proof.
  intros Hk. revert s. induction fuel as [|fuel IH]; intros s; simpl; [constructor|].
  destruct s as [|c s]; constructor.
  - destruct k; [lia|]. discriminate.
  - apply IH.
Qed.

Lemma chunks_of_nonempty (k : nat) (s : jsstring) :
  (1 <= k)%nat -> Forall (fun c => c <> []) (chunks_of k s).
Proof. apply chunks_fuel_nonempty. Qed.

(* ----------------------------------------------------------------- *)
(** *** Writing the words into the working buffer *)

Lemma skipn_repeat {A} (x : A) (k n : nat) : skipn k (repeat x n) = repeat x (n - k).
Proof.
  revert k; induction n as [|n IH]; intros [|k]; simpl; auto.
Qed.

Lemma take_fitting_all (chars : list (list byte)) (room : nat) :
  (length (concat chars) <= room)%nat -> take_fitting room chars = concat chars.
Proof.
  revert room. induction chars as [|ch chars IH]; intros room L; simpl in *.
  - reflexivity.
  - rewrite length_app in L.
    destruct (Nat.leb_spec (length ch) room) as [F|F]; [|lia].
    rewrite IH by lia. reflexivity.
Qed.

Lemma buffer_set_fits (done w : Buffer) (n : nat) :
  (length w <= n)%nat ->
  buffer_set (done ++ repeat x00 n) w (length done)
  = Ok (done ++ w ++ repeat x00 (n - length w)).
Proof.
  intros L. unfold buffer_set. rewrite length_app, repeat_length.
  destruct (Nat.ltb_spec (length done + n) (length done + length w)) as [F|F]; [lia|].
  rewrite firstn_app, firstn_all, Nat.sub_diag, firstn_0, app_nil_r.
  rewrite skipn_app, skipn_all2 by lia.
  replace (length done + length w - length done)%nat with (length w) by lia.
  rewrite skipn_repeat. reflexivity.
Qed.

Lemma buffer_write_fits (done : Buffer) (str : jsstring) (n : nat) :
  (length (utf8_encode str) <= n)%nat ->
  buffer_write (done ++ repeat x00 n) str (length done) (length (utf8_encode str))
  = Ok (done ++ utf8_encode str ++ repeat x00 (n - length (utf8_encode str))).
Proof.
  intros L. unfold buffer_write. rewrite length_app, repeat_length.
  destruct (Nat.ltb_spec (length done + n) (length done)) as [F|F]; [lia|].
  rewrite take_fitting_all by (fold (utf8_encode str); lia).
  fold (utf8_encode str).
  rewrite firstn_app, firstn_all, Nat.sub_diag, firstn_0, app_nil_r.
  rewrite skipn_app, skipn_all2 by lia.
  replace (length done + length (utf8_encode str) - length done)%nat
    with (length (utf8_encode str)) by lia.
  rewrite skipn_repeat. reflexivity.
Qed.

Lemma join_with_cons (sep w : Buffer) (ws : list Buffer) :
  ws <> [] -> join_with sep (w :: ws) = w ++ sep ++ join_with sep ws.
Proof. intros NE. destruct ws as [|w' ws]; [contradiction|reflexivity]. Qed.

Lemma length_join_with_cons (sep w : Buffer) (ws : list Buffer) :
  ws <> [] ->
  length (join_with sep (w :: ws))
  = (length w + length sep + length (join_with sep ws))%nat.
Proof.
  intros NE. rewrite join_with_cons by exact NE. rewrite !length_app. lia.
Qed.

(** The first [reduce] of [entropyToMnemonic]: the size of the buffer. *)
Lemma reduce_bufferSize (n sepLen : nat) (sep : Buffer)
  (f : nat -> Buffer -> nat -> nat) :
  (forall acc w i,
      f acc w i = (acc + length w + (if (i <? n - 1)%nat then sepLen else 0))%nat) ->
  sepLen = length sep ->
  forall ws i acc, (i + length ws = n)%nat ->
    reduce_from i f ws acc = (acc + length (join_with sep ws))%nat.
Proof.
  intros Hf Hsep. induction ws as [|w ws IH]; intros i acc Hn.
  - simpl. lia.
  - cbn [reduce_from]. rewrite Hf. cbn [length] in Hn.
    destruct ws as [|w' ws].
    + simpl in *. destruct (Nat.ltb_spec i (n - 1)); lia.
    + rewrite IH by (cbn [length] in *; lia).
      rewrite (length_join_with_cons sep w (w' :: ws)) by discriminate.
      cbn [length] in Hn.
      destruct (Nat.ltb_spec i (n - 1)); lia.
Qed.

(** The second [reduce]: every word, and the separator after each word but
    the last, is written at its place; nothing is out of range. *)
Lemma reduce_workingBuffer (n sepLen : nat) (separator : jsstring)
  (g : result write_state -> Buffer -> nat -> result write_state) :
  (forall acc w i,
      g acc w i =
      (st <- acc ;;
       wb <- buffer_set (workingBuffer st) w (offset st) ;;
       wb' <- (if (i <? n - 1)%nat
               then buffer_write wb separator (offset st + length w) sepLen
               else Ok wb) ;;
       Ok {| workingBuffer := wb';
             offset := (offset st + length w +
                        (if (i <? n - 1)%nat then sepLen else 0))%nat |})) ->
  sepLen = length (utf8_encode separator) ->
  forall ws i done, (i + length ws = n)%nat ->
    reduce_from i g ws
      (Ok {| workingBuffer :=
               done ++ repeat x00 (length (join_with (utf8_encode separator) ws));
             offset := length done |})
    = Ok {| workingBuffer := done ++ join_with (utf8_encode separator) ws;
            offset := (length done +
                       length (join_with (utf8_encode separator) ws))%nat |}.
Proof.
  intros Hg Hsep. induction ws as [|w ws IH]; intros i done Hn.
  - simpl. rewrite Nat.add_0_r. reflexivity.
  - cbn [reduce_from]. rewrite Hg. cbn [bind workingBuffer offset].
    cbn [length] in Hn.
    destruct ws as [|w' ws].
    + cbn [join_with]. rewrite buffer_set_fits by lia. cbn [bind].
      destruct (Nat.ltb_spec i (n - 1)) as [F|F]; [simpl in Hn; lia|].
      cbn [bind reduce_from]. rewrite Nat.sub_diag, Nat.add_0_r.
      cbn [repeat]. rewrite app_nil_r. reflexivity.
    + rewrite (length_join_with_cons _ w (w' :: ws)) by discriminate.
      rewrite buffer_set_fits by lia. cbn [bind].
      destruct (Nat.ltb_spec i (n - 1)) as [F|F]; [|cbn [length] in Hn; lia].
      replace (length w + length (utf8_encode separator) +
               length (join_with (utf8_encode separator) (w' :: ws)) - length w)%nat
        with (length (utf8_encode separator) +
              length (join_with (utf8_encode separator) (w' :: ws)))%nat by lia.
      replace (done ++ w ++ repeat x00 (length (utf8_encode separator) +
                 length (join_with (utf8_encode separator) (w' :: ws))))
        with ((done ++ w) ++ repeat x00 (length (utf8_encode separator) +
                 length (join_with (utf8_encode separator) (w' :: ws))))
        by (now rewrite <- app_assoc).
      replace (length done + length w)%nat with (length (done ++ w))
        by (now rewrite length_app).
      rewrite Hsep, buffer_write_fits by lia. cbn [bind].
      replace (length (utf8_encode separator) +
               length (join_with (utf8_encode separator) (w' :: ws)) -
               length (utf8_encode separator))%nat
        with (length (join_with (utf8_encode separator) (w' :: ws))) by lia.
      replace ((done ++ w) ++ utf8_encode separator ++
               repeat x00 (length (join_with (utf8_encode separator) (w' :: ws))))
        with (((done ++ w) ++ utf8_encode separator) ++
               repeat x00 (length (join_with (utf8_encode separator) (w' :: ws))))
        by (now rewrite <- !app_assoc).
      replace (length (done ++ w) + length (utf8_encode separator))%nat
        with (length ((done ++ w) ++ utf8_encode separator))
        by (now rewrite !length_app).
      rewrite <- Hsep, IH by (cbn [length] in *; lia).
      rewrite (join_with_cons _ w (w' :: ws)) by discriminate.
      rewrite !length_app, <- !app_assoc.
      f_equal. f_equal. lia.
Qed.


(* ----------------------------------------------------------------- *)
(** *** Splitting the mnemonic, and looking words up *)

Lemma split_step_plain (words : list Buffer) (cur : list byte) (b : byte) :
  b <> x20 -> split_step (words, cur) b = (words, cur ++ [b]).
Proof.
  intros Hb. unfold split_step. rewrite byte_is_not_0x3000, orb_false_r.
  destruct (Z.eqb_spec (number_of_byte b) 0x20) as [E|E]; [|reflexivity].
  apply number_of_byte_x20 in E. contradiction.
Qed.

Lemma split_step_space (words : list Buffer) (cur : list byte) :
  split_step (words, cur) x20 = (words ++ [cur], []).
Proof. reflexivity. Qed.

Lemma fold_split_plain (bs : Buffer) (words : list Buffer) (cur : list byte) :
  ~ In x20 bs -> fold_left split_step bs (words, cur) = (words, cur ++ bs).
Proof.
  revert cur. induction bs as [|b bs IH]; intros cur Hn; cbn [fold_left].
  - now rewrite app_nil_r.
  - rewrite split_step_plain by (intros ->; apply Hn; now left).
    rewrite IH by (intros Hin; apply Hn; now right).
    now rewrite <- app_assoc.
Qed.

Lemma fold_split_word (bs rest : Buffer) (words : list Buffer) (cur : list byte) :
  ~ In x20 bs ->
  fold_left split_step (bs ++ x20 :: rest) (words, cur)
  = fold_left split_step rest (words ++ [cur ++ bs], []).
Proof.
  intros Hn. rewrite fold_left_app, fold_split_plain by exact Hn.
  reflexivity.
Qed.

Lemma fold_split_join (ws : list Buffer) :
  ws <> [] -> Forall (fun w => ~ In x20 w) ws ->
  forall pre,
    (let '(words, currentWord) :=
       fold_left split_step (join_with [x20] ws) (pre, []) in
     words ++ [currentWord]) = pre ++ ws.
Proof.
  induction ws as [|w ws IH]; intros NE Hws pre; [contradiction|].
  inversion Hws as [|? ? Hw Hws']; subst.
  destruct ws as [|w' ws].
  - cbn [join_with]. rewrite fold_split_plain by exact Hw. reflexivity.
  - rewrite join_with_cons by discriminate.
    change ([x20] ++ join_with [x20] (w' :: ws))
      with (x20 :: join_with [x20] (w' :: ws)).
    rewrite fold_split_word by exact Hw.
    rewrite IH by (auto; discriminate).
    rewrite <- app_assoc. reflexivity.
Qed.

(** Splitting what was joined with single spaces gives the words back,
    when no word holds a space. *)
Lemma split_words_join (ws : list Buffer) :
  ws <> [] -> Forall (fun w => ~ In x20 w) ws ->
  split_words (join_with [x20] ws) = ws.
Proof.
  intros NE Hws. unfold split_words.
  apply (fold_split_join ws NE Hws []).
Qed.

Lemma indexOf_from_nth (l : wordlist_t) :
  NoDup l ->
  forall (i : nat) (k : Z), (i < length l)%nat ->
    indexOf_from k l (nth i l []) = k + Z.of_nat i.
Proof.
  induction 1 as [|y l Hy _ IH]; intros i k Hi; [simpl in Hi; lia|].
  destruct i as [|i]; cbn [nth indexOf_from].
  - rewrite str_eqb_refl. lia.
  - cbn [length] in Hi.
    rewrite str_eqb_neq.
    + rewrite IH by lia. lia.
    + intros ->. apply Hy. apply nth_In. lia.
Qed.

Lemma indexOf_nth (l : wordlist_t) (i : nat) :
  NoDup l -> (i < length l)%nat -> indexOf l (nth i l []) = Z.of_nat i.
Proof. intros Hl Hi. unfold indexOf. now rewrite indexOf_from_nth. Qed.

Lemma mapM_map_ok {A B} (f : A -> result B) (g : B -> A) (l : list B) :
  (forall c, In c l -> f (g c) = Ok c) -> mapM f (map g l) = Ok l.
Proof.
  induction l as [|c l IH]; intros Hf; simpl; [reflexivity|].
  rewrite Hf by now left. cbn [bind].
  rewrite IH by (intros; apply Hf; now right). reflexivity.
Qed.

(* ================================================================= *)
(** ** The mnemonic codec *)

Section Codec.
Variable nfkd : jsstring -> jsstring.
Variable sha256 : Buffer -> Buffer.

Lemma deriveChecksumBits_checksum_bits (E : Buffer) :
  deriveChecksumBits sha256 E = checksum_bits sha256 E.
Proof.
  unfold deriveChecksumBits, checksum_bits, slice_to.
  now rewrite bytesToBinary_binary_expansion.
Qed.

Lemma nth_error_or_empty (W : wordlist_t) (i : nat) :
  or_empty (nth_error W i) = nth i W [].
Proof.
  revert i; induction W as [|w W IH]; intros [|i]; simpl; auto.
Qed.

Lemma word_of_chunk (W : wordlist_t) (c : jsstring) :
  bit_string c -> c <> [] ->
  normalize nfkd (array_get W (binaryToByte c)) = nfkd (nth (word_index c) W []).
Proof.
  intros Hc NE. unfold normalize, binaryToByte, array_get, word_index.
  rewrite parseInt2_bit_string by assumption.
  pose proof (parse_bits_range c Hc) as R.
  destruct (Z.ltb_spec (parse_bits 0 c) 0) as [F|F]; [lia|].
  now rewrite nth_error_or_empty.
Qed.

Lemma separator_for_nth (W : wordlist_t) :
  match nth_error W 0 with
  | Some w => if str_eqb w JAPANESE_FIRST_WORD then IDEOGRAPHIC_SPACE else js " "
  | None => js " "
  end = separator_for W.
Proof. destruct W; reflexivity. Qed.

Lemma entropyToMnemonic_joined (D : option wordlist_t) (E : Buffer)
  (wl : option wordlist_t) (W : wordlist_t) :
  or_else wl D = Some W ->
  (16 <= length E <= 32)%nat -> (length E mod 4 = 0)%nat ->
  entropyToMnemonic nfkd sha256 D (IsBuffer E) wl
  = Ok (join_with (utf8_encode (separator_for W)) (mnemonic_words nfkd sha256 W E)).
Proof.
  intros HW HL H4. unfold entropyToMnemonic. rewrite HW.
  destruct (Nat.ltb_spec (length E) 16) as [F|_]; [lia|].
  destruct (Nat.ltb_spec 32 (length E)) as [F|_]; [lia|].
  rewrite H4. cbn [Nat.eqb negb].
  rewrite bytesToBinary_binary_expansion, deriveChecksumBits_checksum_bits.
  fold (mnemonic_bits sha256 E).
  assert (Hbits : bit_string (mnemonic_bits sha256 E)).
  { apply bit_string_app. split; [apply bit_string_binary_expansion|].
    apply bit_string_firstn, bit_string_binary_expansion. }
  assert (NE : mnemonic_bits sha256 E <> []).
  { intros Z0. apply (f_equal (@length Z)) in Z0.
    unfold mnemonic_bits in Z0.
    rewrite length_app, length_binary_expansion in Z0. simpl in Z0. lia. }
  rewrite str_match_chunks_of
    by (auto using bit_string_no_line_terminator; lia).
  cbn [non_null bind].
  rewrite separator_for_nth.
  assert (Hw : map (fun binary : jsstring =>
                      utf8_encode (normalize nfkd (array_get W (binaryToByte binary))))
                   (chunks_of 11 (mnemonic_bits sha256 E))
               = mnemonic_words nfkd sha256 W E).
  { unfold mnemonic_words. apply map_ext_in. intros c Hc. f_equal.
    apply word_of_chunk.
    - pose proof (chunks_of_bit_string 11 _ Hbits) as Hall.
      exact (proj1 (Forall_forall _ _) Hall c Hc).
    - pose proof (chunks_of_nonempty 11 (mnemonic_bits sha256 E) ltac:(lia)) as Hall.
      exact (proj1 (Forall_forall _ _) Hall c Hc). }
  rewrite Hw. clear Hw.
  set (ws := mnemonic_words nfkd sha256 W E).
  set (sep := separator_for W).
  unfold reduce.
  rewrite (reduce_bufferSize (length ws) (length (utf8_encode sep)) (utf8_encode sep)
             _ (fun _ _ _ => eq_refl) eq_refl ws 0%nat 0%nat eq_refl).
  cbn [Nat.add]. unfold buffer_alloc.
  match goal with
  | |- bind (reduce_from 0%nat ?g ws _) _ = _ =>
      rewrite (reduce_workingBuffer (length ws) (length (utf8_encode sep)) sep
                 g (fun _ _ _ => eq_refl) eq_refl ws 0%nat [] eq_refl
               : reduce_from 0%nat g ws
                   (Ok {| workingBuffer :=
                            repeat x00 (length (join_with (utf8_encode sep) ws));
                          offset := 0%nat |}) = _)
  end.
  reflexivity.
Qed.

Lemma word_index_lt (c : jsstring) :
  bit_string c -> length c = 11%nat -> (word_index c < 2048)%nat.
Proof.
  intros Hc L. unfold word_index. pose proof (parse_bits_range c Hc) as R.
  rewrite L in R. change (2 ^ Z.of_nat 11) with 2048 in R. lia.
Qed.

(** Reading back one word of the mnemonic gives its eleven bits. *)
Lemma decode_word (W : wordlist_t) (c : jsstring) :
  length W = 2048%nat -> NoDup W -> Forall (readable_word nfkd) W ->
  bit_string c -> length c = 11%nat ->
  (let word := utf8_encode (nfkd (nth (word_index c) W [])) in
   let index := indexOf W (utf8_decode word) in
   if index =? -1 then Throw (Error INVALID_MNEMONIC)
   else Ok (lpad (toString2 index) (js "0") 11)) = Ok c.
Proof.
  intros LW ND RW Hc Lc. cbv zeta.
  pose proof (word_index_lt c Hc Lc) as Hi.
  assert (Hin : In (nth (word_index c) W []) W) by (apply nth_In; lia).
  destruct (proj1 (Forall_forall _ _) RW _ Hin) as [Hrt _].
  rewrite Hrt, indexOf_nth by (auto; lia).
  destruct (Z.eqb_spec (Z.of_nat (word_index c)) (-1)) as [F|_]; [lia|].
  unfold word_index. pose proof (parse_bits_range c Hc) as R.
  rewrite Z2Nat.id by lia.
  rewrite <- Lc. f_equal. apply lpad_toString2_parse_bits; [exact Hc|].
  intros ->. discriminate.
Qed.

Lemma length_checksum_bits (E : Buffer) :
  length (sha256 E) = 32%nat -> (length E <= 32)%nat ->
  length (checksum_bits sha256 E) = (length E * 8 / 32)%nat.
Proof.
  intros H32 LE. unfold checksum_bits.
  rewrite length_firstn, length_binary_expansion, H32.
  apply Nat.min_l.
  transitivity (32 * 8 / 32)%nat; [apply Nat.Div0.div_le_mono; lia|].
  simpl. lia.
Qed.

Lemma length_mnemonic_bits (E : Buffer) (m : nat) :
  length (sha256 E) = 32%nat -> length E = (4 * m)%nat -> (m <= 8)%nat ->
  length (mnemonic_bits sha256 E) = (11 * (3 * m))%nat.
Proof.
  intros H32 L Hm. unfold mnemonic_bits.
  rewrite length_app, length_binary_expansion, length_checksum_bits by (auto; lia).
  rewrite L. replace (4 * m * 8)%nat with (m * 32)%nat by lia.
  rewrite Nat.div_mul by lia. lia.
Qed.

Lemma valid_entropy_length_quarters (n : nat) :
  valid_entropy_length n -> exists m, n = (4 * m)%nat /\ (4 <= m <= 8)%nat.
Proof.
  intros [-> | [-> | [-> | [-> | ->]]]];
    [exists 4%nat | exists 5%nat | exists 6%nat | exists 7%nat | exists 8%nat];
    split; [reflexivity | lia | reflexivity | lia | reflexivity | lia
           | reflexivity | lia | reflexivity | lia].
Qed.

Lemma mnemonicToEntropy_joined (D : option wordlist_t) (E : Buffer)
  (wl : option wordlist_t) (W : wordlist_t) :
  (forall b, length (sha256 b) = 32%nat) ->
  valid_entropy_length (length E) ->
  or_else wl D = Some W ->
  length W = 2048%nat -> NoDup W -> Forall (readable_word nfkd) W ->
  mnemonicToEntropy nfkd sha256 D
    (IsBuffer (join_with [x20] (mnemonic_words nfkd sha256 W E))) wl
  = Ok (toHex E).
Proof.
  intros H32 HV HW LW ND RW.
  destruct (valid_entropy_length_quarters _ HV) as [m [Lm Hm]].
  pose proof (length_mnemonic_bits E m (H32 E) Lm ltac:(lia)) as Lbits.
  assert (Hbits : bit_string (mnemonic_bits sha256 E)).
  { apply bit_string_app. split; [apply bit_string_binary_expansion|].
    apply bit_string_firstn, bit_string_binary_expansion. }
  destruct (chunks_of_exact 11 (3 * m) _ ltac:(lia) Lbits) as [Hlen Hcount].
  pose proof (chunks_of_bit_string 11 _ Hbits) as Hcb.
  assert (Hwords : length (mnemonic_words nfkd sha256 W E) = (3 * m)%nat)
    by (unfold mnemonic_words; now rewrite length_map).
  unfold mnemonicToEntropy. rewrite HW.
  rewrite split_words_join.
  2:{ intros Z0. rewrite Z0 in Hwords. simpl in Hwords. lia. }
  2:{ unfold mnemonic_words. apply Forall_map, Forall_forall. intros c Hc.
      pose proof (proj1 (Forall_forall _ _) Hlen c Hc) as Lc.
      pose proof (proj1 (Forall_forall _ _) Hcb c Hc) as Bc.
      pose proof (word_index_lt c Bc Lc) as Hi.
      assert (Hin : In (nth (word_index c) W []) W) by (apply nth_In; lia).
      exact (proj2 (proj1 (Forall_forall _ _) RW _ Hin)). }
  rewrite Hwords, Nat.mul_comm, Nat.Div0.mod_mul. cbn [Nat.eqb negb].
  unfold mnemonic_words at 1.
  rewrite (mapM_map_ok _ _ (chunks_of 11 (mnemonic_bits sha256 E))).
  2:{ intros c Hc. apply decode_word; auto.
      - exact (proj1 (Forall_forall _ _) Hcb c Hc).
      - exact (proj1 (Forall_forall _ _) Hlen c Hc). }
  cbn [bind]. rewrite chunks_of_concat by lia.
  rewrite Lbits. replace (11 * (3 * m))%nat with (m * 33)%nat by lia.
  rewrite Nat.div_mul by lia.
  assert (LE : length (binary_expansion E) = (m * 32)%nat)
    by (rewrite length_binary_expansion, Lm; lia).
  unfold slice_to, slice_from, mnemonic_bits.
  rewrite firstn_app, skipn_app, <- LE, firstn_all, skipn_all, Nat.sub_diag.
  rewrite firstn_0, skipn_0, app_nil_r. cbn [app].
  assert (NE : E <> []) by (intros ->; simpl in Lm; lia).
  rewrite str_match_chunks_of.
  2: lia.
  2: apply bit_string_no_line_terminator, bit_string_binary_expansion.
  2:{ intros Z0. rewrite Z0 in LE. simpl in LE. lia. }
  unfold binary_expansion at 1.
  rewrite chunks_of_blocks.
  2: lia.
  2:{ apply Forall_map, Forall_forall. intros b _. apply length_bits_of_byte. }
  cbn [non_null bind]. rewrite !map_map.
  rewrite (map_ext (fun x => byte_of_entry (binaryToByte (bits_of_byte x))) (fun x => x)).
  2:{ intros b. rewrite binaryToByte_bits_of_byte. apply byte_of_number_of_byte. }
  rewrite map_id, length_map.
  destruct (Nat.ltb_spec (length E) 16) as [F|_]; [lia|].
  destruct (Nat.ltb_spec 32 (length E)) as [F|_]; [lia|].
  rewrite Lm, Nat.mul_comm, Nat.Div0.mod_mul. cbn [Nat.eqb negb].
  rewrite deriveChecksumBits_checksum_bits, str_eqb_refl. reflexivity.
Qed.

(** Round trip, for a wordlist of 2048 distinct readable words that is
    joined with ASCII spaces. *)
Lemma roundtrip_resolved (D : option wordlist_t) (E : Buffer)
  (wl : option wordlist_t) (W : wordlist_t) :
  (forall b, length (sha256 b) = 32%nat) ->
  valid_entropy_length (length E) ->
  or_else wl D = Some W ->
  length W = 2048%nat -> NoDup W -> Forall (readable_word nfkd) W ->
  hd_error W <> Some JAPANESE_FIRST_WORD ->
  exists mnemonic,
    entropyToMnemonic nfkd sha256 D (IsBuffer E) wl = Ok mnemonic /\
    mnemonicToEntropy nfkd sha256 D (IsBuffer mnemonic) wl = Ok (toHex E).
Proof.
  intros H32 HV HW LW ND RW NJ.
  destruct (valid_entropy_length_quarters _ HV) as [m [Lm Hm]].
  eexists. split.
  - apply entropyToMnemonic_joined; [exact HW|lia|].
    rewrite Lm, Nat.mul_comm. apply Nat.Div0.mod_mul.
  - assert (Hsep : utf8_encode (separator_for W) = [x20]).
    { destruct W as [|w W]; [reflexivity|]. cbn [separator_for].
      rewrite str_eqb_neq; [reflexivity|].
      intros ->. apply NJ. reflexivity. }
    rewrite Hsep. now apply mnemonicToEntropy_joined.
Qed.


End Codec.

(* ----------------------------------------------------------------- *)
(** *** Further facts on the encodings *)

(** [toHex] is read back by the hexadecimal decoder. *)
Lemma fromHex_toHex (b : Buffer) : fromHex (toHex b) = b.
Proof.
  induction b as [|x b IH]; [reflexivity|].
  unfold toHex. cbn [map concat app]. fold (toHex b).
  cbn [fromHex]. rewrite IH. destruct x; reflexivity.
Qed.

Lemma chunks_fuel_length_le (k fuel : nat) (s : jsstring) :
  Forall (fun c => (length c <= k)%nat) (chunks_fuel fuel k s).
Proof.
  revert s. induction fuel as [|fuel IH]; intros s; simpl; [constructor|].
  destruct s as [|c s]; constructor.
  - apply firstn_le_length.
  - apply IH.
Qed.

Lemma word_index_lt_2048 (c : jsstring) :
  bit_string c -> (length c <= 11)%nat -> (word_index c < 2048)%nat.
Proof.
  intros Hc L. unfold word_index. pose proof (parse_bits_range c Hc) as R.
  assert (2 ^ Z.of_nat (length c) <= 2 ^ 11) by (apply Z.pow_le_mono_r; lia).
  lia.
Qed.

Lemma join_with_without (x : byte) (sep : Buffer) (ws : list Buffer) :
  ~ In x sep -> Forall (fun w => ~ In x w) ws -> ~ In x (join_with sep ws).
Proof.
  intros Hsep. induction 1 as [|w ws Hw Hws IH]; [intros []|].
  destruct ws as [|w' ws]; [exact Hw|].
  rewrite join_with_cons by discriminate. intros Hin.
  apply in_app_or in Hin as [Hin|Hin]; [now apply Hw|].
  apply in_app_or in Hin as [Hin|Hin]; [now apply Hsep|now apply IH].
Qed.

(** A buffer that holds no ASCII space is one word, whatever else it holds:
    the test against 0x3000 never succeeds on a byte. *)
Lemma split_words_without_space (bs : Buffer) :
  ~ In x20 bs -> split_words bs = [bs].
Proof.
  intros Hn. unfold split_words. now rewrite fold_split_plain.
Qed.

(* ================================================================= *)
(** ** Properties of the exported functions *)

(** The two separators, as bytes. *)
Lemma utf8_encode_space : utf8_encode (js " ") = [x20].
Proof. reflexivity. Qed.

Lemma utf8_encode_ideographic_space : utf8_encode IDEOGRAPHIC_SPACE = [xe3; x80; x80].
Proof. reflexivity. Qed.

Lemma valid_entropy_length_checks (n : nat) :
  valid_entropy_length n <-> (16 <= n <= 32)%nat /\ (n mod 4 = 0)%nat.
Proof.
  split.
  - intros [-> | [-> | [-> | [-> | ->]]]]; split; solve [lia | reflexivity].
  - intros [R M]. unfold valid_entropy_length.
    pose proof (Nat.div_mod_eq n 4) as D. rewrite M in D. lia.
Qed.

Section Exported.
Variable nfkd : jsstring -> jsstring.
Variable sha256 : Buffer -> Buffer.
Variable pbkdf2Sync : Buffer -> Buffer -> Z -> Z -> jsstring -> Buffer.
Variable randomBytes : Z -> result Buffer.

(** The words of a mnemonic hold no space when the words of the wordlist
    hold none. *)
Lemma mnemonic_words_without_space (E : Buffer) (W : wordlist_t) :
  length W = 2048%nat ->
  Forall (fun w => ~ In x20 (utf8_encode (nfkd w))) W ->
  Forall (fun word => ~ In x20 word) (mnemonic_words nfkd sha256 W E).
Proof.
  intros LW NS. unfold mnemonic_words. apply Forall_map, Forall_forall.
  intros c Hc.
  assert (Hbits : bit_string (mnemonic_bits sha256 E)).
  { apply bit_string_app. split; [apply bit_string_binary_expansion|].
    apply bit_string_firstn, bit_string_binary_expansion. }
  pose proof (proj1 (Forall_forall _ _) (chunks_of_bit_string 11 _ Hbits) c Hc) as Bc.
  pose proof (proj1 (Forall_forall _ _)
                (chunks_fuel_length_le 11 _ (mnemonic_bits sha256 E)) c Hc) as Lc.
  pose proof (word_index_lt_2048 c Bc Lc) as Hi.
  apply (proj1 (Forall_forall _ _) NS). apply nth_In. lia.
Qed.

(** The round trip where the words are joined by U+3000: the scan of
    [mnemonicToEntropy] finds one word, and the word count is refused. *)
Lemma roundtrip_ideographic (D : option wordlist_t) (E : Buffer)
  (wl : option wordlist_t) (W : wordlist_t) :
  valid_entropy_length (length E) ->
  or_else wl D = Some W ->
  length W = 2048%nat ->
  Forall (fun w => ~ In x20 (utf8_encode (nfkd w))) W ->
  hd_error W = Some JAPANESE_FIRST_WORD ->
  exists mnemonic,
    entropyToMnemonic nfkd sha256 D (IsBuffer E) wl = Ok mnemonic /\
    mnemonicToEntropy nfkd sha256 D (IsBuffer mnemonic) wl
    = Throw (Error INVALID_MNEMONIC).
Proof.
  intros HV HW LW NS HJ.
  apply valid_entropy_length_checks in HV as [R M].
  assert (Hsep : utf8_encode (separator_for W) = [xe3; x80; x80]).
  { destruct W as [|w W]; [discriminate|]. injection HJ as ->. reflexivity. }
  eexists. split.
  - apply entropyToMnemonic_joined; [exact HW|exact R|exact M].
  - rewrite Hsep. unfold mnemonicToEntropy. rewrite HW.
    rewrite split_words_without_space; [reflexivity|].
    apply join_with_without.
    + intros [F|[F|[F|[]]]]; discriminate.
    + now apply mnemonic_words_without_space.
Qed.

(** C1.  The round trip, and where the code breaks it.  Let [W] be a
    wordlist of 2048 words, the hash have 32 bytes, and [E] be an entropy
    buffer of 16, 20, 24, 28 or 32 bytes.

    - If the words of [W] are pairwise distinct, each is read back unchanged
      after NFKD normalisation and UTF-8 encoding and decoding and holds no
      space, and the first is not the Japanese first word, then
      [mnemonicToEntropy(entropyToMnemonic(E, W), W)] returns the lowercase
      hexadecimal encoding of [E], as the round trip says.
    - If the first word of [W] is the Japanese first word (and no word
      holds a space), [entropyToMnemonic] joins the words by U+3000, the
      scan of [mnemonicToEntropy] compares each byte with 0x3000 and so
      never cuts there, and [mnemonicToEntropy(entropyToMnemonic(E, W), W)]
      throws [INVALID_MNEMONIC]: the round trip is broken for the Japanese
      wordlist, against the comment above the test (split at space or
      U+3000, for Japanese wordlists). *)
Theorem mnemonicToEntropy_entropyToMnemonic (D : option wordlist_t)
  (E : Buffer) (W : wordlist_t) :
  (forall b, length (sha256 b) = 32%nat) ->
  valid_entropy_length (length E) ->
  length W = 2048%nat ->
  (NoDup W -> Forall (readable_word nfkd) W ->
   hd_error W <> Some JAPANESE_FIRST_WORD ->
   (mnemonic <- entropyToMnemonic nfkd sha256 D (IsBuffer E) (Some W) ;;
    mnemonicToEntropy nfkd sha256 D (IsBuffer mnemonic) (Some W))
   = Ok (toHex E)) /\
  (Forall (fun w => ~ In x20 (utf8_encode (nfkd w))) W ->
   hd_error W = Some JAPANESE_FIRST_WORD ->
   (mnemonic <- entropyToMnemonic nfkd sha256 D (IsBuffer E) (Some W) ;;
    mnemonicToEntropy nfkd sha256 D (IsBuffer mnemonic) (Some W))
   = Throw (Error INVALID_MNEMONIC)).
Proof.
  intros H32 HV LW. split.
  - intros ND RW NJ.
    destruct (roundtrip_resolved nfkd sha256 D E (Some W) W H32 HV eq_refl LW ND RW NJ)
      as [mnemonic [Henc Hdec]].
    rewrite Henc. exact Hdec.
  - intros NS HJ.
    destruct (roundtrip_ideographic D E (Some W) W HV eq_refl LW NS HJ)
      as [mnemonic [Henc Hdec]].
    rewrite Henc. exact Hdec.
Qed.

(** C2 (what the code does instead).  Let the resolved wordlist have 2048
    words, none with a space in its encoding, the first being the Japanese
    first word.  For every entropy buffer of valid length,
    [entropyToMnemonic] returns the words joined by U+3000 (E3 80 80);
    [mnemonicToEntropy], given that buffer, does not split it at U+3000 (it
    finds one word) and throws [INVALID_MNEMONIC]: no byte equals 0x3000
    ([byte_is_not_0x3000]). *)
Theorem mnemonicToEntropy_ideographic_space (D : option wordlist_t) (E : Buffer)
  (wl : option wordlist_t) (W : wordlist_t) :
  or_else wl D = Some W ->
  valid_entropy_length (length E) ->
  hd_error W = Some JAPANESE_FIRST_WORD ->
  length W = 2048%nat ->
  Forall (fun w => ~ In x20 (utf8_encode (nfkd w))) W ->
  let mnemonic := join_with [xe3; x80; x80] (mnemonic_words nfkd sha256 W E) in
  entropyToMnemonic nfkd sha256 D (IsBuffer E) wl = Ok mnemonic /\
  split_words mnemonic = [mnemonic] /\
  mnemonicToEntropy nfkd sha256 D (IsBuffer mnemonic) wl
  = Throw (Error INVALID_MNEMONIC).
Proof.
  intros HW HV HJ LW NS mnemonic.
  apply valid_entropy_length_checks in HV as [R M].
  assert (Hsep : utf8_encode (separator_for W) = [xe3; x80; x80]).
  { destruct W as [|w W]; [discriminate|]. injection HJ as ->. reflexivity. }
  assert (Hsplit : split_words mnemonic = [mnemonic]).
  { apply split_words_without_space. apply join_with_without.
    - intros [F|[F|[F|[]]]]; discriminate.
    - unfold mnemonic_words. apply Forall_map, Forall_forall. intros c Hc.
      assert (Hbits : bit_string (mnemonic_bits sha256 E)).
      { apply bit_string_app. split; [apply bit_string_binary_expansion|].
        apply bit_string_firstn, bit_string_binary_expansion. }
      pose proof (proj1 (Forall_forall _ _) (chunks_of_bit_string 11 _ Hbits) c Hc) as Bc.
      pose proof (proj1 (Forall_forall _ _)
                    (chunks_fuel_length_le 11 _ (mnemonic_bits sha256 E)) c Hc) as Lc.
      pose proof (word_index_lt_2048 c Bc Lc) as Hi.
      apply (proj1 (Forall_forall _ _) NS). apply nth_In. lia. }
  split; [|split].
  - rewrite (entropyToMnemonic_joined nfkd sha256 D E wl W HW R M), Hsep.
    reflexivity.
  - exact Hsplit.
  - unfold mnemonicToEntropy. rewrite HW, Hsplit. reflexivity.
Qed.

(** C3 (as amended).  For every entropy buffer of valid length,
    [entropyToMnemonic] returns the words of the mnemonic joined by the
    ideographic space U+3000 (the bytes E3 80 80) when the first word of the
    resolved wordlist is the Japanese first word as the source writes it
    (U+3042 U+3044 U+3053 U+304F U+3057 U+3093), and joined by one ASCII
    space otherwise. *)
Theorem entropyToMnemonic_separator (D : option wordlist_t) (E : Buffer)
  (wl : option wordlist_t) (W : wordlist_t) :
  or_else wl D = Some W ->
  valid_entropy_length (length E) ->
  (hd_error W = Some JAPANESE_FIRST_WORD ->
   entropyToMnemonic nfkd sha256 D (IsBuffer E) wl
   = Ok (join_with (utf8_encode IDEOGRAPHIC_SPACE)
           (mnemonic_words nfkd sha256 W E))) /\
  (hd_error W <> Some JAPANESE_FIRST_WORD ->
   entropyToMnemonic nfkd sha256 D (IsBuffer E) wl
   = Ok (join_with (utf8_encode (js " ")) (mnemonic_words nfkd sha256 W E))).
Proof.
  intros HW HV. apply valid_entropy_length_checks in HV as [R M].
  rewrite (entropyToMnemonic_joined nfkd sha256 D E wl W HW R M).
  split; intros HJ.
  - destruct W as [|w W]; [discriminate|]. injection HJ as ->.
    reflexivity.
  - destruct W as [|w W]; [reflexivity|]. cbn [separator_for].
    rewrite str_eqb_neq; [reflexivity|]. intros ->. now apply HJ.
Qed.

(** C4.  [validateMnemonic] returns [true] exactly when [mnemonicToEntropy]
    on the same arguments returns, and [false] exactly when it throws,
    whatever it throws. *)
Theorem validateMnemonic_iff (D : option wordlist_t) (mnemonic : jsstring)
  (wordlist : option wordlist_t) :
  (validateMnemonic nfkd sha256 D mnemonic wordlist = true <->
   exists entropy,
     mnemonicToEntropy nfkd sha256 D (IsString mnemonic) wordlist = Ok entropy) /\
  (validateMnemonic nfkd sha256 D mnemonic wordlist = false <->
   exists e,
     mnemonicToEntropy nfkd sha256 D (IsString mnemonic) wordlist = Throw e).
Proof.
  unfold validateMnemonic.
  destruct (mnemonicToEntropy nfkd sha256 D (IsString mnemonic) wordlist) as [h|e].
  - split; split; intros H; try discriminate; eauto.
    destruct H as [e He]. discriminate.
  - split; split; intros H; try discriminate; eauto.
    destruct H as [h Hh]. discriminate.
Qed.

(** C5 (as amended).  When a wordlist is available (passed, or else the
    default), [entropyToMnemonic] throws [INVALID_ENTROPY] for every buffer
    shorter than 16 bytes, longer than 32, or of a length that 4 does not
    divide, and returns a mnemonic for every buffer of 16, 20, 24, 28 or
    32 bytes. *)
Theorem entropyToMnemonic_length_check (D : option wordlist_t) (E : Buffer)
  (wl : option wordlist_t) (W : wordlist_t) :
  or_else wl D = Some W ->
  ((length E < 16)%nat \/ (32 < length E)%nat \/ (length E mod 4 <> 0)%nat ->
   entropyToMnemonic nfkd sha256 D (IsBuffer E) wl
   = Throw (TypeError INVALID_ENTROPY)) /\
  (valid_entropy_length (length E) ->
   exists mnemonic,
     entropyToMnemonic nfkd sha256 D (IsBuffer E) wl = Ok mnemonic).
Proof.
  intros HW. split.
  - intros Bad. unfold entropyToMnemonic. rewrite HW.
    destruct (Nat.ltb_spec (length E) 16) as [|G1]; [reflexivity|].
    destruct (Nat.ltb_spec 32 (length E)) as [|G2]; [reflexivity|].
    destruct (Nat.eqb_spec (length E mod 4) 0) as [G3|]; [lia|reflexivity].
  - intros HV. apply valid_entropy_length_checks in HV as [R M].
    eexists. apply (entropyToMnemonic_joined nfkd sha256 D E wl W HW R M).
Qed.

(** C6.  For an entropy buffer of 16, 20, 24, 28 or 32 bytes and a hash of
    32 bytes, [deriveChecksumBits] returns the first [(N*8)/32] bits of the
    binary expansion of the hash of the entropy: a string of exactly that
    many characters, each ['0'] or ['1'].  The result is a function of the
    entropy alone. *)
Theorem deriveChecksumBits_spec (E : Buffer) :
  valid_entropy_length (length E) ->
  length (sha256 E) = 32%nat ->
  deriveChecksumBits sha256 E
  = firstn (length E * 8 / 32) (binary_expansion (sha256 E)) /\
  length (deriveChecksumBits sha256 E) = (length E * 8 / 32)%nat /\
  bit_string (deriveChecksumBits sha256 E).
Proof.
  intros HV H32. apply valid_entropy_length_checks in HV as [R M].
  rewrite deriveChecksumBits_checksum_bits.
  split; [reflexivity|]. split.
  - apply length_checksum_bits; [exact H32|lia].
  - apply bit_string_firstn, bit_string_binary_expansion.
Qed.

(** C7.  [mnemonicToSeedSync(m, p)] is the PBKDF2 derivation with 2048
    iterations, 64 bytes of output and SHA-512, whose password is the UTF-8
    encoding of NFKD(m), or [m] itself when it is given as bytes, and
    whose salt is the UTF-8 encoding of "mnemonic" followed by NFKD(p); when
    [p] is absent the salt is "mnemonic" alone (NFKD leaves the empty string
    empty). *)
Theorem mnemonicToSeedSync_spec :
  (forall (m p : jsstring),
      mnemonicToSeedSync nfkd pbkdf2Sync (IsString m) (Some p)
      = pbkdf2Sync (utf8_encode (nfkd m)) (utf8_encode (js "mnemonic" ++ nfkd p))
          2048 64 (js "sha512")) /\
  (forall (b : Buffer) (p : jsstring),
      mnemonicToSeedSync nfkd pbkdf2Sync (IsBuffer b) (Some p)
      = pbkdf2Sync b (utf8_encode (js "mnemonic" ++ nfkd p)) 2048 64 (js "sha512")) /\
  (nfkd [] = [] ->
   (forall (m : jsstring),
       mnemonicToSeedSync nfkd pbkdf2Sync (IsString m) None
       = pbkdf2Sync (utf8_encode (nfkd m)) (utf8_encode (js "mnemonic"))
           2048 64 (js "sha512")) /\
   (forall (b : Buffer),
       mnemonicToSeedSync nfkd pbkdf2Sync (IsBuffer b) None
       = pbkdf2Sync b (utf8_encode (js "mnemonic")) 2048 64 (js "sha512"))).
Proof.
  split; [|split].
  - intros m p. reflexivity.
  - intros b p. reflexivity.
  - intros Hempty. split; intros x; unfold mnemonicToSeedSync, salt, normalize;
      cbn [or_empty]; rewrite Hempty, app_nil_r; reflexivity.
Qed.

(** C8 (as amended).  For every strength [s] other than 0 that 32 divides,
    [generateMnemonic(s, rng, wordlist)] calls [rng] once, with [s/8], and
    returns [entropyToMnemonic(rng(s/8), wordlist)]; an omitted strength is
    taken as 128; for every strength that 32 does not divide the call throws
    [INVALID_ENTROPY] and [rng] is not called. *)
Theorem generateMnemonic_spec (D : option wordlist_t)
  (rng : option (Z -> result Buffer)) (wordlist : option wordlist_t) :
  (forall s, s <> 0 -> Z.rem s 32 = 0 ->
     generateMnemonic nfkd sha256 randomBytes D (Some s) rng wordlist
     = ([s / 8],
        bytes <- rng_used randomBytes rng (s / 8) ;;
        entropyToMnemonic nfkd sha256 D (IsBuffer bytes) wordlist)) /\
  generateMnemonic nfkd sha256 randomBytes D None rng wordlist
  = generateMnemonic nfkd sha256 randomBytes D (Some 128) rng wordlist /\
  (forall s, Z.rem s 32 <> 0 ->
     generateMnemonic nfkd sha256 randomBytes D (Some s) rng wordlist
     = ([], Throw (TypeError INVALID_ENTROPY))).
Proof.
  split; [|split].
  - intros s Hs Hr. unfold generateMnemonic, rng_used.
    destruct (Z.eqb_spec s 0) as [|_]; [contradiction|].
    rewrite Hr. reflexivity.
  - reflexivity.
  - intros s Hr. unfold generateMnemonic.
    destruct (Z.eqb_spec s 0) as [->|_]; [now elim Hr|].
    destruct (Z.eqb_spec (Z.rem s 32) 0) as [|_]; [contradiction|reflexivity].
Qed.

(** C10.  [generateMnemonic(0, rng, wordlist)] is
    [generateMnemonic(128, rng, wordlist)]: the strength 0 is replaced by
    128.  When [rng(16)] returns 16 bytes and a wordlist is available the
    call does not throw, and returns twelve words joined by the separator. *)
Theorem generateMnemonic_zero_strength (D : option wordlist_t)
  (rng : option (Z -> result Buffer)) (wordlist : option wordlist_t) :
  generateMnemonic nfkd sha256 randomBytes D (Some 0) rng wordlist
  = generateMnemonic nfkd sha256 randomBytes D (Some 128) rng wordlist /\
  (forall (bytes : Buffer) (W : wordlist_t),
      (forall b, length (sha256 b) = 32%nat) ->
      rng_used randomBytes rng 16 = Ok bytes -> length bytes = 16%nat ->
      or_else wordlist D = Some W ->
      generateMnemonic nfkd sha256 randomBytes D (Some 0) rng wordlist
      = ([16], Ok (join_with (utf8_encode (separator_for W))
                     (mnemonic_words nfkd sha256 W bytes))) /\
      length (mnemonic_words nfkd sha256 W bytes) = 12%nat).
Proof.
  split; [reflexivity|].
  intros bytes W H32 Hrng L HW. split.
  - unfold generateMnemonic. cbn [Z.eqb Z.rem Z.quotrem negb].
    change (128 / 8) with 16. fold (rng_used randomBytes rng). rewrite Hrng. cbn [bind].
    rewrite (entropyToMnemonic_joined nfkd sha256 D bytes wordlist W HW);
      [reflexivity|lia|now rewrite L].
  - unfold mnemonic_words. rewrite length_map.
    pose proof (length_mnemonic_bits sha256 bytes 4 (H32 bytes) L ltac:(lia)) as Lb.
    now destruct (chunks_of_exact 11 (3 * 4) _ ltac:(lia) Lb) as [_ ->].
Qed.

End Exported.

(* ================================================================= *)
(** ** The default wordlist *)

Lemma skipn_nth_error {A} (l : list A) (i : nat) (x : A) :
  nth_error l i = Some x -> skipn i l = x :: skipn (S i) l.
Proof.
  revert i; induction l as [|y l IH]; intros [|i] H; try discriminate.
  - now injection H as ->.
  - cbn [skipn]. now apply IH.
Qed.

(** The [every] of [getDefaultWordlist], started at index [i]. *)
Lemma every_from_prefix (dflt wl : wordlist_t) (i : nat) :
  every_from i
    (fun (word : jsstring) (index : nat) =>
       match nth_error dflt index with
       | Some w => str_eqb word w
       | None => false
       end) wl = true
  <-> exists rest, skipn i dflt = wl ++ rest.
Proof.
  revert i; induction wl as [|w wl IH]; intros i; cbn [every_from].
  - split; [intros _; now exists (skipn i dflt) | reflexivity].
  - rewrite andb_true_iff, IH. split.
    + intros [Hw [rest Hr]].
      destruct (nth_error dflt i) as [w'|] eqn:E; [|discriminate].
      apply str_eqb_eq in Hw. subst w'.
      exists rest. rewrite (skipn_nth_error _ _ _ E), Hr. reflexivity.
    + intros [rest Hr].
      assert (E : nth_error dflt i = Some w)
        by (rewrite <- hd_error_skipn, Hr; reflexivity).
      rewrite E, str_eqb_refl. split; [reflexivity|].
      exists rest. rewrite (skipn_nth_error _ _ _ E) in Hr. now injection Hr.
Qed.

Lemma scan_candidate (wordlists : object wordlist_t) (dflt : wordlist_t)
  (lang : jsstring) :
  (if str_eqb lang (js "JA") || str_eqb lang (js "EN") then false
   else
     match get wordlists lang with
     | Some wl =>
         every_from 0
           (fun (word : jsstring) (index : nat) =>
              match nth_error dflt index with
              | Some w => str_eqb word w
              | None => false
              end) wl
     | None => false
     end) = true
  <-> candidate wordlists dflt lang.
Proof.
  unfold candidate, is_prefix.
  destruct (str_eqb lang (js "JA")) eqn:EJ.
  { apply str_eqb_eq in EJ. cbn [orb]. split; [discriminate|tauto]. }
  destruct (str_eqb lang (js "EN")) eqn:EE.
  { apply str_eqb_eq in EE. cbn [orb]. split; [discriminate|tauto]. }
  cbn [orb].
  assert (NJ : lang <> js "JA")
    by (intros F; apply str_eqb_eq in F; congruence).
  assert (NE : lang <> js "EN")
    by (intros F; apply str_eqb_eq in F; congruence).
  destruct (get wordlists lang) as [wl|].
  - rewrite every_from_prefix. cbn [skipn]. split.
    + intros [rest Hr]. repeat split; auto. exists wl. split; eauto.
    + intros [_ [_ [wl' [Hwl Hp]]]]. now injection Hwl as ->.
  - split; [discriminate|]. intros [_ [_ [wl' [Hwl _]]]]. discriminate.
Qed.

Lemma hd_error_filter {A} (p : A -> bool) (l : list A) (x : A) :
  hd_error (filter p l) = Some x <->
  exists before after,
    l = before ++ x :: after /\ p x = true /\
    forall k, In k before -> p k = false.
Proof.
  induction l as [|y l IH]; cbn [filter].
  - split; [discriminate|]. intros [[|? ?] [after [E _]]]; discriminate.
  - destruct (p y) eqn:Py.
    + cbn [hd_error]. split.
      * intros H. injection H as ->. exists [], l. repeat split; auto.
        intros k [].
      * intros [[|b before] [after [E [Px Hb]]]].
        -- now injection E as -> _.
        -- injection E as -> _. rewrite (Hb b (or_introl eq_refl)) in Py.
           discriminate.
    + rewrite IH. split.
      * intros [before [after [-> [Px Hb]]]].
        exists (y :: before), after. repeat split; auto.
        intros k [<-|Hk]; auto.
      * intros [[|b before] [after [E [Px Hb]]]].
        -- injection E as -> _. congruence.
        -- injection E as -> ->. exists before, after.
           repeat split; auto. intros k Hk. apply Hb. now right.
Qed.

Lemma get_In_keys {A} (o : object A) (key : jsstring) (v : A) :
  get o key = Some v -> In key (keys o).
Proof.
  induction o as [|[k x] o IH]; cbn [get keys map fst]; [discriminate|].
  destruct (str_eqb k key) eqn:E.
  - apply str_eqb_eq in E. intros _. now left.
  - intros H. right. now apply IH.
Qed.

(** C9 (as amended).  If "ES" is registered, [setDefaultWordlist("ES")]
    makes its wordlist the default, and a following [getDefaultWordlist()]
    returns the first registered language, in key order and leaving out
    "JA" and "EN", whose wordlist agrees with the default at each of its own
    indices.  That language is "ES" when no language registered before "ES"
    is such a language. *)
Theorem getDefaultWordlist_after_set (wordlists : object wordlist_t)
  (L : wordlist_t) :
  get wordlists (js "ES") = Some L ->
  setDefaultWordlist wordlists (js "ES") = Ok (Some L) /\
  (exists before lang after,
      keys wordlists = before ++ lang :: after /\
      candidate wordlists L lang /\
      (forall k, In k before -> ~ candidate wordlists L k) /\
      getDefaultWordlist wordlists (Some L) = Ok (Some lang)) /\
  (forall before after,
      keys wordlists = before ++ js "ES" :: after ->
      (forall k, In k before -> ~ candidate wordlists L k) ->
      getDefaultWordlist wordlists (Some L) = Ok (Some (js "ES"))).
Proof.
  intros HES.
  assert (CES : candidate wordlists L (js "ES")).
  { repeat split; try discriminate. exists L. split; [exact HES|].
    exists []. now rewrite app_nil_r. }
  split; [unfold setDefaultWordlist; now rewrite HES|].
  unfold getDefaultWordlist.
  set (p := fun lang : jsstring => _).
  assert (Hp : forall lang, p lang = true <-> candidate wordlists L lang)
    by (intros lang; apply scan_candidate).
  assert (Hn : forall lang, ~ candidate wordlists L lang -> p lang = false).
  { intros lang N. destruct (p lang) eqn:E; [|reflexivity].
    apply Hp in E. contradiction. }
  split.
  - destruct (hd_error (filter p (keys wordlists))) as [lang|] eqn:E.
    + apply hd_error_filter in E as [before [after [Hk [Px Hb]]]].
      exists before, lang, after.
      split; [exact Hk|]. split; [now apply Hp|]. split.
      * intros k Hk' C. apply Hp in C. rewrite (Hb k Hk') in C. discriminate.
      * reflexivity.
    + exfalso.
      assert (I : In (js "ES") (filter p (keys wordlists))).
      { apply filter_In. split; [eapply get_In_keys; eauto|now apply Hp]. }
      destruct (filter p (keys wordlists)); [exact I|discriminate].
  - intros before after Hk Hb. f_equal. apply hd_error_filter.
    exists before, after.
    split; [exact Hk|]. split; [now apply Hp|]. intros k Hk'. now apply Hn, Hb.
Qed.

(* ================================================================= *)
(** ** The properties at concrete inputs *)

Lemma SHA256_digest_length (msg : Buffer) : length (SHA256.digest msg) = 32%nat.
Proof.
  unfold SHA256.digest.
  destruct (fold_left SHA256.compress _ SHA256.H0)
    as [[[[[[[a b] c] d] e] f] g] h].
  reflexivity.
Qed.

(** The first four bits of SHA-256 of sixteen zero bytes. *)
Example deriveChecksumBits_zeros16 :
  deriveChecksumBits SHA256.digest Sample.zeros16 = js "0011".
Proof. vm_compute. reflexivity. Qed.

Lemma existsb_str_eqb_false (w : jsstring) (l : wordlist_t) :
  existsb (str_eqb w) l = false -> ~ In w l.
Proof.
  intros E Hin.
  assert (T : existsb (str_eqb w) l = true)
    by (apply existsb_exists; exists w; split; [exact Hin|apply str_eqb_refl]).
  congruence.
Qed.

Lemma distinct_words_NoDup (l : wordlist_t) : distinct_words l = true -> NoDup l.
Proof.
  induction l as [|w l IH]; cbn [distinct_words]; intros H; constructor.
  - apply andb_true_iff in H as [H _]. apply negb_true_iff in H.
    now apply existsb_str_eqb_false.
  - apply andb_true_iff in H as [_ H]. now apply IH.
Qed.

Lemma readable_wordb_sound (nfkd : jsstring -> jsstring) (W : wordlist_t) :
  forallb (readable_wordb nfkd) W = true -> Forall (readable_word nfkd) W.
Proof.
  intros H. apply Forall_forall. intros w Hw.
  pose proof (proj1 (forallb_forall _ _) H w Hw) as R.
  unfold readable_wordb in R. apply andb_true_iff in R as [R1 R2].
  split; [now apply str_eqb_eq|].
  apply negb_true_iff in R2. intros Hin.
  assert (T : existsb (Byte.eqb x20) (utf8_encode (nfkd w)) = true)
    by (apply existsb_exists; exists x20; split; [exact Hin|reflexivity]).
  congruence.
Qed.

Example SHA256_empty :
  toHex (SHA256.digest [])
  = js "e3b0c44298fc1c149afbf4c8996fb92427ae41e4649b934ca495991b7852b855".
Proof. vm_compute. reflexivity. Qed.

Example SHA256_abc :
  toHex (SHA256.digest [x61; x62; x63])
  = js "ba7816bf8f01cfea414140de5dae2223b00361a396177a9cb410ff61f20015ad".
Proof. vm_compute. reflexivity. Qed.

Lemma english_like_NoDup : NoDup Sample.english_like.
Proof. apply distinct_words_NoDup. vm_compute. reflexivity. Qed.

Lemma english_like_readable :
  Forall (readable_word Sample.nfkd_basic) Sample.english_like.
Proof. apply readable_wordb_sound. vm_compute. reflexivity. Qed.

Section Instances.
Import Sample.

Lemma japanese_like_without_space :
  Forall (fun w => ~ In x20 (utf8_encode (nfkd_basic w))) japanese_like.
Proof.
  assert (R : Forall (readable_word nfkd_basic) japanese_like)
    by (apply readable_wordb_sound; vm_compute; reflexivity).
  eapply Forall_impl; [|exact R]. intros w [_ H]. exact H.
Qed.

(** The reference vector of BIP-39 for sixteen zero bytes. *)
Example entropyToMnemonic_zeros16 :
  entropyToMnemonic nfkd_basic SHA256.digest None (IsBuffer zeros16) (Some english_like)
  = Ok (utf8_encode (js
      "abandon abandon abandon abandon abandon abandon abandon abandon abandon abandon abandon about")).
Proof. vm_compute. reflexivity. Qed.

Example validateMnemonic_accepts :
  validateMnemonic nfkd_basic SHA256.digest (Some english_like)
    (js "abandon abandon abandon abandon abandon abandon abandon abandon abandon abandon abandon about")
    None = true.
Proof. vm_compute. reflexivity. Qed.

Example validateMnemonic_rejects_checksum :
  mnemonicToEntropy nfkd_basic SHA256.digest (Some english_like)
    (IsString (js "abandon abandon abandon abandon abandon abandon abandon abandon abandon abandon abandon abandon"))
    None = Throw (Error INVALID_CHECKSUM) /\
  validateMnemonic nfkd_basic SHA256.digest (Some english_like)
    (js "abandon abandon abandon abandon abandon abandon abandon abandon abandon abandon abandon abandon")
    None = false.
Proof. split; vm_compute; reflexivity. Qed.

Example validateMnemonic_rejects_missing_wordlist :
  validateMnemonic nfkd_basic SHA256.digest None
    (js "abandon abandon abandon abandon abandon abandon abandon abandon abandon abandon abandon about")
    None = false.
Proof. reflexivity. Qed.

Lemma japanese_like_NoDup : NoDup japanese_like.
Proof. apply distinct_words_NoDup. vm_compute. reflexivity. Qed.

Lemma japanese_like_readable : Forall (readable_word nfkd_basic) japanese_like.
Proof. apply readable_wordb_sound. vm_compute. reflexivity. Qed.

(** C1, witness.  Sixteen zero bytes and [japanese_like], 2048 distinct
    words that are read back and start with the Japanese first word: the
    round trip throws.  Twenty bytes of entropy and [english_like], 2048
    distinct ASCII words: the round trip returns the entropy. *)
Lemma roundtrip_japanese_like :
  (NoDup japanese_like /\ Forall (readable_word nfkd_basic) japanese_like /\
   (mnemonic <- entropyToMnemonic nfkd_basic SHA256.digest None
                  (IsBuffer zeros16) (Some japanese_like) ;;
    mnemonicToEntropy nfkd_basic SHA256.digest None
      (IsBuffer mnemonic) (Some japanese_like))
   = Throw (Error INVALID_MNEMONIC)) /\
  (mnemonic <- entropyToMnemonic nfkd_basic SHA256.digest None
                 (IsBuffer entropy20) (Some english_like) ;;
   mnemonicToEntropy nfkd_basic SHA256.digest None
     (IsBuffer mnemonic) (Some english_like))
  = Ok (toHex entropy20).
Proof.
  split; [split; [exact japanese_like_NoDup|split; [exact japanese_like_readable|]]|].
  - apply (proj2 (mnemonicToEntropy_entropyToMnemonic nfkd_basic SHA256.digest None
                    zeros16 japanese_like SHA256_digest_length
                    (or_introl eq_refl) eq_refl)).
    + exact japanese_like_without_space.
    + reflexivity.
  - apply (proj1 (mnemonicToEntropy_entropyToMnemonic nfkd_basic SHA256.digest None
                    entropy20 english_like SHA256_digest_length
                    (or_intror (or_introl eq_refl)) eq_refl)).
    + exact english_like_NoDup.
    + exact english_like_readable.
    + discriminate.
Defined.

(** Why the words must be distinct: in a wordlist of 2048 words of which two
    are equal, the second is read back as the first, and the entropy is
    lost. *)
Lemma roundtrip_fails_with_duplicate :
  length with_duplicate = 2048%nat /\
  (mnemonic <- entropyToMnemonic nfkd_basic SHA256.digest None
                 (IsBuffer entropy20) (Some with_duplicate) ;;
   mnemonicToEntropy nfkd_basic SHA256.digest None
     (IsBuffer mnemonic) (Some with_duplicate))
  = Throw (Error INVALID_CHECKSUM).
Proof. split; vm_compute; reflexivity. Qed.

(** Why the words must be readable: the round trip also fails when a word
    holds a space, or is not read back from its encoding. *)
Example roundtrip_fails_with_space_in_word :
  (mnemonic <- entropyToMnemonic nfkd_basic SHA256.digest None
                 (IsBuffer entropy20) (Some with_space) ;;
   mnemonicToEntropy nfkd_basic SHA256.digest None
     (IsBuffer mnemonic) (Some with_space))
  = Throw (Error INVALID_MNEMONIC).
Proof. vm_compute. reflexivity. Qed.

Example roundtrip_fails_with_unpaired_surrogate :
  (mnemonic <- entropyToMnemonic nfkd_basic SHA256.digest None
                 (IsBuffer entropy20) (Some with_unpaired_surrogate) ;;
   mnemonicToEntropy nfkd_basic SHA256.digest None
     (IsBuffer mnemonic) (Some with_unpaired_surrogate))
  = Throw (Error INVALID_MNEMONIC).
Proof. vm_compute. reflexivity. Qed.

(** C2, witness: the mnemonic of sixteen zero bytes over a wordlist that
    starts with the Japanese first word. *)
Lemma mnemonicToEntropy_ideographic_space_japanese_like :
  entropyToMnemonic nfkd_basic SHA256.digest None (IsBuffer zeros16) (Some japanese_like)
  = Ok (join_with [xe3; x80; x80]
          (mnemonic_words nfkd_basic SHA256.digest japanese_like zeros16)) /\
  split_words (join_with [xe3; x80; x80]
                 (mnemonic_words nfkd_basic SHA256.digest japanese_like zeros16))
  = [join_with [xe3; x80; x80]
       (mnemonic_words nfkd_basic SHA256.digest japanese_like zeros16)] /\
  mnemonicToEntropy nfkd_basic SHA256.digest None
    (IsBuffer (join_with [xe3; x80; x80]
                 (mnemonic_words nfkd_basic SHA256.digest japanese_like zeros16)))
    (Some japanese_like)
  = Throw (Error INVALID_MNEMONIC).
Proof.
  apply (mnemonicToEntropy_ideographic_space nfkd_basic SHA256.digest None zeros16
           (Some japanese_like) japanese_like eq_refl (or_introl eq_refl) eq_refl
           eq_refl japanese_like_without_space).
Defined.

(** The same mnemonic given as a string is read: NFKD turns U+3000 into
    U+0020 before the bytes are scanned. *)
Example mnemonicToEntropy_ideographic_space_string :
  mnemonicToEntropy nfkd_basic SHA256.digest None
    (IsString (utf8_decode
       (join_with [xe3; x80; x80]
          (mnemonic_words nfkd_basic SHA256.digest japanese_like zeros16))))
    (Some japanese_like)
  = Ok (toHex zeros16).
Proof. vm_compute. reflexivity. Qed.

(** C3, witness: sixteen zero bytes and a wordlist that starts with the
    Japanese first word. *)
Lemma entropyToMnemonic_separator_japanese :
  hd_error japanese_like = Some JAPANESE_FIRST_WORD /\
  entropyToMnemonic nfkd_basic SHA256.digest None (IsBuffer zeros16) (Some japanese_like)
  = Ok (join_with (utf8_encode IDEOGRAPHIC_SPACE)
          (mnemonic_words nfkd_basic SHA256.digest japanese_like zeros16)).
Proof.
  split; [reflexivity|].
  apply (proj1 (entropyToMnemonic_separator nfkd_basic SHA256.digest None zeros16
                  (Some japanese_like) japanese_like eq_refl
                  (or_introl eq_refl)) eq_refl).
Defined.

(** C3, counterexample: the first word is the Japanese first word as the
    specification spells it, and the words are joined by ASCII spaces. *)
Lemma entropyToMnemonic_separator_spec_spelling :
  hd_error spec_japanese_like = Some spec_japanese_first_word /\
  entropyToMnemonic nfkd_basic SHA256.digest None
    (IsBuffer zeros16) (Some spec_japanese_like)
  = Ok (join_with [x20]
          (repeat (utf8_encode spec_japanese_first_word) 11 ++
           [utf8_encode (word 3)])) /\
  entropyToMnemonic nfkd_basic SHA256.digest None
    (IsBuffer zeros16) (Some spec_japanese_like)
  <> Ok (join_with [xe3; x80; x80]
          (repeat (utf8_encode spec_japanese_first_word) 11 ++
           [utf8_encode (word 3)])).
Proof.
  split; [reflexivity|]. split; [vm_compute; reflexivity|].
  vm_compute. discriminate.
Qed.

(** C5, witness. *)
Lemma entropyToMnemonic_length_check_english_like :
  entropyToMnemonic nfkd_basic SHA256.digest None (IsBuffer zeros15) (Some english_like)
  = Throw (TypeError INVALID_ENTROPY) /\
  exists mnemonic,
    entropyToMnemonic nfkd_basic SHA256.digest None (IsBuffer zeros16) (Some english_like)
    = Ok mnemonic.
Proof.
  split.
  - apply (proj1 (entropyToMnemonic_length_check nfkd_basic SHA256.digest None zeros15
                    (Some english_like) english_like eq_refl)).
    left. cbn. lia.
  - apply (proj2 (entropyToMnemonic_length_check nfkd_basic SHA256.digest None zeros16
                    (Some english_like) english_like eq_refl)).
    left. reflexivity.
Defined.

(** C5, counterexample: fifteen bytes, no wordlist passed and no default. *)
Lemma entropyToMnemonic_short_without_wordlist :
  entropyToMnemonic nfkd_basic SHA256.digest None (IsBuffer zeros15) None
  = Throw (Error WORDLIST_REQUIRED).
Proof. reflexivity. Qed.

(** C6, witness. *)
Lemma deriveChecksumBits_spec_zeros16 :
  deriveChecksumBits SHA256.digest zeros16
  = firstn (length zeros16 * 8 / 32) (binary_expansion (SHA256.digest zeros16)) /\
  length (deriveChecksumBits SHA256.digest zeros16) = (length zeros16 * 8 / 32)%nat /\
  bit_string (deriveChecksumBits SHA256.digest zeros16).
Proof.
  apply deriveChecksumBits_spec.
  - left. reflexivity.
  - apply SHA256_digest_length.
Defined.

(** C7, witness: [nfkd_basic] leaves the empty string empty.  The key
    derivation is instantiated by a function that returns its password
    followed by its salt, which shows the arguments of the call. *)
Lemma mnemonicToSeedSync_spec_witness :
  mnemonicToSeedSync nfkd_basic (fun password salt _ _ _ => password ++ salt)
    (IsString (js "abandon about")) None
  = utf8_encode (js "abandon about") ++ utf8_encode (js "mnemonic").
Proof.
  apply (proj1 (proj2 (proj2
           (mnemonicToSeedSync_spec nfkd_basic
              (fun password salt _ _ _ => password ++ salt))) eq_refl)
           (js "abandon about")).
Defined.

(** C8, witness: strength 256. *)
Lemma generateMnemonic_spec_witness :
  generateMnemonic nfkd_basic SHA256.digest zero_rng None
    (Some 256) (Some zero_rng) (Some english_like)
  = ([32],
     bytes <- zero_rng 32 ;;
     entropyToMnemonic nfkd_basic SHA256.digest None (IsBuffer bytes) (Some english_like)).
Proof.
  apply (proj1 (generateMnemonic_spec nfkd_basic SHA256.digest zero_rng None
                  (Some zero_rng) (Some english_like)) 256).
  - discriminate.
  - reflexivity.
Defined.

(** C8, counterexample: strength 0 is divisible by 32, and [zero_rng]
    returns [s/8] bytes for every [s]; yet [rng] is called with 16 and the
    call returns a mnemonic of twelve words, where
    [entropyToMnemonic(rng(0/8), wordlist)] throws. *)
Lemma generateMnemonic_zero_is_not_delegated :
  Z.rem 0 32 = 0 /\
  generateMnemonic nfkd_basic SHA256.digest zero_rng None
    (Some 0) (Some zero_rng) (Some english_like)
  = ([16], Ok (utf8_encode (js
      "abandon abandon abandon abandon abandon abandon abandon abandon abandon abandon abandon about"))) /\
  (bytes <- zero_rng (0 / 8) ;;
   entropyToMnemonic nfkd_basic SHA256.digest None (IsBuffer bytes) (Some english_like))
  = Throw (TypeError INVALID_ENTROPY).
Proof.
  split; [reflexivity|]. split; vm_compute; reflexivity.
Qed.

(** C9, witness: "ES" is registered after "EN" and "JA", which are not
    scanned. *)
Lemma getDefaultWordlist_after_set_witness :
  get plain_registry (js "ES") = Some english_like /\
  getDefaultWordlist plain_registry (Some english_like) = Ok (Some (js "ES")).
Proof.
  split; [reflexivity|].
  apply (proj2 (proj2 (getDefaultWordlist_after_set plain_registry english_like
                         eq_refl)) [js "EN"; js "JA"] []).
  - reflexivity.
  - intros k [<- | [<- | []]] [NJ [NE _]]; [now apply NE | now apply NJ].
Defined.

(** C9, counterexample: "spanish" is registered before "ES" with the same
    wordlist; after [setDefaultWordlist("ES")] the answer is "spanish". *)
Lemma getDefaultWordlist_answers_alias :
  setDefaultWordlist aliased_registry (js "ES") = Ok (Some english_like) /\
  getDefaultWordlist aliased_registry (Some english_like)
  = Ok (Some (js "spanish")).
Proof. split; vm_compute; reflexivity. Qed.

(** C10, witness: [zero_rng] returns sixteen bytes when asked for 16. *)
Lemma generateMnemonic_zero_strength_witness :
  generateMnemonic nfkd_basic SHA256.digest zero_rng None
    (Some 0) (Some zero_rng) (Some english_like)
  = ([16], Ok (join_with (utf8_encode (separator_for english_like))
                 (mnemonic_words nfkd_basic SHA256.digest english_like zeros16))) /\
  length (mnemonic_words nfkd_basic SHA256.digest english_like zeros16) = 12%nat.
Proof.
  apply (proj2 (generateMnemonic_zero_strength nfkd_basic SHA256.digest zero_rng
                  None (Some zero_rng) (Some english_like))
           zeros16 english_like SHA256_digest_length eq_refl eq_refl eq_refl).
Defined.

End Instances.

(* ================================================================= *)
(** * Further coverage of ts_src/index.ts

    The asynchronous seed derivation ([pbkdf2Promise], [mnemonicToSeed],
    lines 15-37 and 88-99) is added to the embedding, and further
    properties of the functions above are proved. *)

(* ================================================================= *)
(** ** The asynchronous seed derivation *)

Section SeedAsync.
Variable nfkd : jsstring -> jsstring.

(** The asynchronous [pbkdf2(password, salt, iterations, keylen, digest,
    callback)] of the [pbkdf2] package, as the arguments
    [(err, derivedKey)] it calls back with; [err] is [None] when it is
    [null]. *)
Variable pbkdf2 : Buffer -> Buffer -> Z -> Z -> jsstring -> option exn * Buffer.

(** A promise is modelled by how it settles: [Ok] when it is fulfilled,
    [Throw] when it is rejected.  (A throw of [pbkdf2] inside the executor
    rejects the promise as well; it counts as an [err] here.)  The two
    callers pass buffers for [password] and [saltMixin]. *)
Definition pbkdf2Promise (password saltMixin : Buffer) (iterations keylen : Z)
  (digest : jsstring) : result Buffer :=
  let '(err, derivedKey) := pbkdf2 password saltMixin iterations keylen digest in
  match err with
  | Some e => Throw e
  | None => Ok derivedKey
  end.

Definition mnemonicToSeed (mnemonic : jsstring) (password : option jsstring)
  : result Buffer :=
  let mnemonicBuffer := utf8_encode (normalize nfkd (Some mnemonic)) in
  let saltBuffer := utf8_encode (salt (Some (normalize nfkd password))) in
  pbkdf2Promise mnemonicBuffer saltBuffer 2048 64 (js "sha512").

End SeedAsync.

(* ================================================================= *)
(** ** Definitions for the further properties *)

(** [cur] put in front of the first word. *)
Definition glue (cur : list byte) (ws : list Buffer) : list Buffer :=
  match ws with
  | [] => [cur]
  | w :: ws' => (cur ++ w) :: ws'
  end.

(** The scan started in the state [(words, cur)]. *)
Definition scan_from (bs : Buffer) (words : list Buffer) (cur : list byte)
  : list Buffer :=
  let '(words', cur') := fold_left split_step bs (words, cur) in
  words' ++ [cur'].

(** The eleven bits [mnemonicToEntropy] writes for a word. *)
Definition word_bits (W : wordlist_t) (word : Buffer) : jsstring :=
  lpad (toString2 (indexOf W (utf8_decode word))) (js "0") 11.

(** Concrete inputs. *)
Module MoreSamples.

Definition abandon_about : jsstring :=
  js "abandon abandon abandon abandon abandon abandon abandon abandon abandon abandon abandon about".

(** Three words of the list, and three words of which one is not. *)
Definition abandon3 : Buffer := utf8_encode (js "abandon abandon abandon").
Definition unknown3 : Buffer := utf8_encode (js "abandon zzz about").

(** A key derivation that returns its password followed by its salt, and
    its callback form. *)
Definition concat_kdf (password salt : Buffer) (iterations keylen : Z)
  (digest : jsstring) : Buffer := password ++ salt.

Definition concat_kdf_callback (password salt : Buffer) (iterations keylen : Z)
  (digest : jsstring) : option exn * Buffer := (None, password ++ salt).

End MoreSamples.


(* ================================================================= *)
(** ** Further properties of the bit codec *)

Lemma concat_repeat_snoc (p : jsstring) (k : nat) :
  concat (repeat p k) ++ p = concat (repeat p (S k)).
Proof.
  induction k as [|k IH]; simpl in *.
  - now rewrite app_nil_r.
  - now rewrite <- app_assoc, IH.
Qed.

Lemma lpad_loop_shape (padString : jsstring) (len fuel : nat) (str : jsstring) :
  padString <> [] -> (len - length str <= fuel)%nat ->
  exists k,
    lpad_loop fuel str padString len = concat (repeat padString k) ++ str /\
    (len <= length (lpad_loop fuel str padString len))%nat /\
    (k = 0%nat \/
     (length (lpad_loop fuel str padString len) < len + length padString)%nat).
Proof.
  intros NE. revert str. induction fuel as [|fuel IH]; intros str F.
  - exists 0%nat. simpl. repeat split; [lia|now left].
  - cbn [lpad_loop]. destruct (Nat.ltb_spec (length str) len) as [L|L].
    + assert (P : (1 <= length padString)%nat)
        by (destruct padString; [contradiction|simpl; lia]).
      destruct (IH (padString ++ str)) as [k [E [G M]]].
      { rewrite length_app. lia. }
      exists (S k). split; [|split].
      * rewrite E, <- concat_repeat_snoc, <- app_assoc. reflexivity.
      * exact G.
      * right. destruct M as [-> | M]; [|exact M].
        rewrite E. simpl. rewrite length_app. lia.
    + exists 0%nat. simpl. repeat split; [lia|now left].
Qed.

(** X1.  [lpad] pads on the left and never truncates: with a non-empty
    [padString] the result is some copies of it followed by [str], is at
    least [length] long, and is either [str] itself or shorter than
    [length] plus one more copy. *)
Theorem lpad_pads_on_the_left (str padString : jsstring) (len : nat) :
  padString <> [] ->
  exists k,
    lpad str padString len = concat (repeat padString k) ++ str /\
    (len <= length (lpad str padString len))%nat /\
    (k = 0%nat \/ (length (lpad str padString len) < len + length padString)%nat).
Proof.
  intros NE. apply lpad_loop_shape; [exact NE|lia].
Qed.

(** X1, witness. *)
Lemma lpad_pads_on_the_left_witness :
  exists k,
    lpad (js "101") (js "0") 8 = concat (repeat (js "0") k) ++ js "101" /\
    (8 <= length (lpad (js "101") (js "0") 8))%nat /\
    (k = 0%nat \/ (length (lpad (js "101") (js "0") 8) < 8 + length (js "0"))%nat).
Proof.
  apply (lpad_pads_on_the_left (js "101") (js "0") 8). discriminate.
Defined.

(** X2.  [bytesToBinary] on the bytes of a buffer is their binary expansion,
    most significant bit first: eight characters ['0'] or ['1'] per byte. *)
Theorem bytesToBinary_of_buffer (bs : Buffer) :
  bytesToBinary (map number_of_byte bs) = binary_expansion bs /\
  length (bytesToBinary (map number_of_byte bs)) = (8 * length bs)%nat /\
  bit_string (bytesToBinary (map number_of_byte bs)).
Proof.
  rewrite bytesToBinary_binary_expansion.
  split; [reflexivity|]. split.
  - apply length_binary_expansion.
  - apply bit_string_binary_expansion.
Qed.

Lemma parse_bits_leading_zeros (k : nat) (s : jsstring) :
  parse_bits 0 (repeat c0 k ++ s) = parse_bits 0 s.
Proof.
  induction k as [|k IH]; [reflexivity|]. simpl. exact IH.
Qed.

(** X3.  A number written in base 2 and padded with zeros is read back by
    [binaryToByte], whatever the width. *)
Theorem binaryToByte_lpad_toString2 (v : Z) (width : nat) :
  0 <= v ->
  binaryToByte (lpad (toString2 v) (js "0") width) = Some v.
Proof.
  intros Hv. unfold binaryToByte. rewrite lpad_zero.
  rewrite parseInt2_bit_string.
  - rewrite parse_bits_leading_zeros, parse_bits_toString2 by exact Hv.
    reflexivity.
  - apply bit_string_app. split; [apply bit_string_repeat|].
    now apply bit_string_toString2.
  - intros F. apply app_eq_nil in F as [_ F].
    destruct v as [|p|p]; simpl in F; try discriminate; try lia.
    destruct p; simpl in F; try discriminate;
      apply app_eq_nil in F as [_ F]; discriminate.
Qed.

(** X3, witness: a word index, padded to eleven digits. *)
Lemma binaryToByte_lpad_toString2_witness :
  binaryToByte (lpad (toString2 2037) (js "0") 11) = Some 2037.
Proof. apply binaryToByte_lpad_toString2. lia. Defined.

(** X4.  A non-empty string of at most 53 binary digits (so that its value
    is a number JavaScript holds exactly) is read by [binaryToByte] as a
    number below two to the power of its length, and writing that number in
    base 2, padded to that length, gives the string back. *)
Theorem lpad_toString2_binaryToByte (s : jsstring) :
  bit_string s -> s <> [] -> (length s <= 53)%nat ->
  exists v,
    binaryToByte s = Some v /\
    0 <= v < 2 ^ Z.of_nat (length s) /\
    lpad (toString2 v) (js "0") (length s) = s.
Proof.
  intros Hs NE _. exists (parse_bits 0 s). split; [|split].
  - now apply parseInt2_bit_string.
  - now apply parse_bits_range.
  - now apply lpad_toString2_parse_bits.
Qed.

(** X4, witness. *)
Lemma lpad_toString2_binaryToByte_witness :
  exists v,
    binaryToByte (js "00000000011") = Some v /\
    0 <= v < 2 ^ Z.of_nat (length (js "00000000011")) /\
    lpad (toString2 v) (js "0") (length (js "00000000011")) = js "00000000011".
Proof.
  apply lpad_toString2_binaryToByte.
  - repeat constructor.
  - discriminate.
  - simpl. lia.
Defined.

(* ================================================================= *)
(** ** Further properties of the word scan *)

Lemma scan_from_space (bs : Buffer) (words : list Buffer) (cur : list byte) :
  scan_from (x20 :: bs) words cur = scan_from bs (words ++ [cur]) [].
Proof. reflexivity. Qed.

Lemma scan_from_plain (b : byte) (bs : Buffer) (words : list Buffer)
  (cur : list byte) :
  b <> x20 -> scan_from (b :: bs) words cur = scan_from bs words (cur ++ [b]).
Proof.
  intros Hb. unfold scan_from. cbn [fold_left].
  now rewrite split_step_plain by exact Hb.
Qed.

Lemma scan_from_glue (bs : Buffer) :
  forall (words : list Buffer) (cur : list byte),
    scan_from bs words cur = words ++ glue cur (scan_from bs [] []).
Proof.
  induction bs as [|b bs IH]; intros words cur.
  - unfold scan_from. simpl. now rewrite app_nil_r.
  - destruct (byte_eq_dec b x20) as [->|Hb].
    + rewrite !scan_from_space.
      rewrite (IH (words ++ [cur]) []).
      match goal with
      | |- _ = _ ++ glue _ (scan_from bs ?w ?c) => rewrite (IH w c)
      end.
      cbn [app glue]. rewrite app_nil_r, <- app_assoc. reflexivity.
    + rewrite !scan_from_plain by exact Hb.
      rewrite (IH words (cur ++ [b])).
      match goal with
      | |- _ = _ ++ glue _ (scan_from bs ?w ?c) => rewrite (IH w c)
      end.
      cbn [app].
      destruct (scan_from bs [] []) as [|w ws]; cbn [glue app].
      * reflexivity.
      * now rewrite <- app_assoc.
Qed.

Lemma fold_split_glue (bs : Buffer) (words : list Buffer) (cur : list byte) :
  scan_from bs words cur = words ++ glue cur (split_words bs).
Proof. apply scan_from_glue. Qed.

Lemma split_words_nonempty (bs : Buffer) : split_words bs <> [].
Proof.
  unfold split_words. destruct (fold_left split_step bs ([], [])) as [ws cur].
  intros F. apply app_eq_nil in F as [_ F]. discriminate.
Qed.

Lemma split_words_nil : split_words [] = [[]].
Proof. reflexivity. Qed.

Lemma split_words_space (bs : Buffer) :
  split_words (x20 :: bs) = [] :: split_words bs.
Proof.
  change (split_words (x20 :: bs)) with (scan_from bs [[]] []).
  rewrite (fold_split_glue bs [[]] []). cbn [app].
  pose proof (split_words_nonempty bs).
  destruct (split_words bs); [contradiction|reflexivity].
Qed.

Lemma split_words_plain (b : byte) (bs : Buffer) :
  b <> x20 -> split_words (b :: bs) = glue [b] (split_words bs).
Proof.
  intros Hb. change (split_words (b :: bs)) with (scan_from (b :: bs) [] []).
  rewrite scan_from_plain by exact Hb. apply (fold_split_glue bs [] [b]).
Qed.

Lemma split_words_spec (bs : Buffer) :
  join_with [x20] (split_words bs) = bs /\
  Forall (fun w => ~ In x20 w) (split_words bs) /\
  length (split_words bs) = S (count_occ byte_eq_dec bs x20).
Proof.
  induction bs as [|b bs [IHj [IHf IHl]]].
  - rewrite split_words_nil. repeat split. constructor; [intros []|constructor].
  - destruct (byte_eq_dec b x20) as [->|Hb].
    + rewrite split_words_space. split; [|split].
      * rewrite join_with_cons by apply split_words_nonempty.
        rewrite IHj. reflexivity.
      * constructor; [intros []|exact IHf].
      * cbn [length]. rewrite IHl, count_occ_cons_eq by reflexivity. reflexivity.
    + rewrite split_words_plain by exact Hb.
      pose proof (split_words_nonempty bs) as NE.
      destruct (split_words bs) as [|w ws]; [contradiction|].
      cbn [glue app]. split; [|split].
      * destruct ws as [|w' ws].
        -- cbn [join_with] in *. now rewrite IHj.
        -- rewrite join_with_cons in * by discriminate.
           rewrite <- IHj. reflexivity.
      * inversion IHf as [|? ? Hw Hws]; subst. constructor; [|exact Hws].
        intros [F|F]; [now apply Hb|now apply Hw].
      * cbn [length] in *. rewrite IHl, count_occ_cons_neq by auto. reflexivity.
Qed.

(** X5.  The scan of [mnemonicToEntropy] cuts the buffer at every byte 0x20 and
    nowhere else: joining the words with single spaces gives the buffer
    back, no word holds a space, and there is one word more than there are
    spaces (so an empty buffer is one empty word). *)
Theorem split_words_cuts_at_spaces (bs : Buffer) :
  join_with [x20] (split_words bs) = bs /\
  Forall (fun w => ~ In x20 w) (split_words bs) /\
  length (split_words bs) = S (count_occ byte_eq_dec bs x20).
Proof. exact (split_words_spec bs). Qed.

(* ================================================================= *)
(** ** Further properties of [mnemonicToEntropy] *)

Lemma indexOf_from_not_in (l : wordlist_t) (x : jsstring) (i : Z) :
  ~ In x l -> indexOf_from i l x = -1.
Proof.
  revert i. induction l as [|y l IH]; intros i Hn; cbn [indexOf_from].
  - reflexivity.
  - rewrite str_eqb_neq by (intros ->; apply Hn; now left).
    apply IH. intros Hin. apply Hn. now right.
Qed.

Lemma indexOf_from_in (l : wordlist_t) (x : jsstring) :
  In x l ->
  forall i,
    i <= indexOf_from i l x < i + Z.of_nat (length l) /\
    nth (Z.to_nat (indexOf_from i l x - i)) l [] = x.
Proof.
  induction l as [|y l IH]; intros Hin i; [destruct Hin|].
  cbn [indexOf_from length]. destruct (str_eqb y x) eqn:E.
  - apply str_eqb_eq in E. subst y. rewrite Z.sub_diag. split; [lia|reflexivity].
  - assert (Hin' : In x l).
    { destruct Hin as [->|H]; [|exact H]. rewrite str_eqb_refl in E. discriminate. }
    destruct (IH Hin' (i + 1)) as [R N]. split; [lia|].
    replace (indexOf_from (i + 1) l x - i) with (Z.succ (indexOf_from (i + 1) l x - (i + 1)))
      by lia.
    rewrite Z2Nat.inj_succ by lia. exact N.
Qed.

Lemma indexOf_in (l : wordlist_t) (x : jsstring) :
  In x l ->
  0 <= indexOf l x < Z.of_nat (length l) /\ nth (Z.to_nat (indexOf l x)) l [] = x.
Proof.
  intros Hin. destruct (indexOf_from_in l x Hin 0) as [R N].
  unfold indexOf. rewrite Z.sub_0_r in N. split; [lia|exact N].
Qed.

Lemma length_pos_toString2 (p : positive) (n : nat) :
  Z.pos p < 2 ^ Z.of_nat n -> (length (pos_toString2 p) <= n)%nat.
Proof.
  revert n. induction p as [q IH|q IH|]; intros n Hn.
  - destruct n as [|n]; [simpl in Hn; lia|].
    rewrite Nat2Z.inj_succ, Z.pow_succ_r in Hn by lia.
    cbn [pos_toString2]. rewrite length_app. cbn [length].
    specialize (IH n ltac:(lia)). lia.
  - destruct n as [|n]; [simpl in Hn; lia|].
    rewrite Nat2Z.inj_succ, Z.pow_succ_r in Hn by lia.
    cbn [pos_toString2]. rewrite length_app. cbn [length].
    specialize (IH n ltac:(lia)). lia.
  - destruct n as [|n]; [simpl in Hn; lia|]. simpl. lia.
Qed.

Lemma length_toString2 (z : Z) (n : nat) :
  0 <= z < 2 ^ Z.of_nat n -> (1 <= n)%nat -> (length (toString2 z) <= n)%nat.
Proof.
  intros [Hz Hn] H1. destruct z as [|p|p]; [simpl; lia| |lia].
  now apply length_pos_toString2.
Qed.

Lemma word_bits_known (W : wordlist_t) (word : Buffer) :
  (length W <= 2048)%nat -> In (utf8_decode word) W ->
  length (word_bits W word) = 11%nat /\ bit_string (word_bits W word) /\
  parse_bits 0 (word_bits W word) = indexOf W (utf8_decode word).
Proof.
  intros LW Hin. destruct (indexOf_in W _ Hin) as [R _].
  unfold word_bits. rewrite lpad_zero.
  assert (L : (length (toString2 (indexOf W (utf8_decode word))) <= 11)%nat).
  { apply length_toString2; [|lia]. change (2 ^ Z.of_nat 11) with 2048. lia. }
  split; [|split].
  - rewrite length_app, repeat_length. lia.
  - apply bit_string_app. split; [apply bit_string_repeat|].
    apply bit_string_toString2. lia.
  - rewrite parse_bits_leading_zeros. apply parse_bits_toString2. lia.
Qed.

Lemma mapM_all_ok {A B} (f : A -> result B) (g : A -> B) (l : list A) :
  Forall (fun a => f a = Ok (g a)) l -> mapM f l = Ok (map g l).
Proof.
  induction 1 as [|a l Ha _ IH]; simpl; [reflexivity|].
  rewrite Ha. cbn [bind]. rewrite IH. reflexivity.
Qed.

Lemma mapM_throws {A B} (f : A -> result B) (e : exn) (l : list A) :
  (forall a, In a l -> (exists b, f a = Ok b) \/ f a = Throw e) ->
  (exists a, In a l /\ f a = Throw e) ->
  mapM f l = Throw e.
Proof.
  induction l as [|a l IH]; intros Hall [x [Hin Hx]]; [destruct Hin|].
  cbn [mapM]. destruct (Hall a (or_introl eq_refl)) as [[b Hb]|Ht].
  - rewrite Hb. cbn [bind]. rewrite IH; [reflexivity| |].
    + intros a' Ha'. apply Hall. now right.
    + destruct Hin as [->|Hin]; [congruence|]. now exists x.
  - rewrite Ht. reflexivity.
Qed.

Lemma length_concat_const {A} (k : nat) (l : list (list A)) :
  Forall (fun c => length c = k) l -> length (concat l) = (k * length l)%nat.
Proof.
  induction 1 as [|c l Hc _ IH]; simpl; [lia|].
  rewrite length_app, IH, Hc. lia.
Qed.

Lemma number_of_byte_of_number (v : Z) :
  0 <= v < 256 -> number_of_byte (byte_of_number v) = v.
Proof.
  intros R. unfold byte_of_number, number_of_byte.
  rewrite Z.mod_small by exact R.
  destruct (Byte.of_N (Z.to_N v)) as [b|] eqn:E.
  - apply Byte.to_of_N in E. rewrite E. lia.
  - apply Byte.of_N_None_iff in E. lia.
Qed.

(** An eight-digit string is the expansion of the byte it is read as. *)
Lemma bits_of_byte_of_entry (c : jsstring) :
  bit_string c -> length c = 8%nat ->
  bits_of_byte (byte_of_entry (binaryToByte c)) = c.
Proof.
  intros Hc Lc. assert (NE : c <> []) by (intros ->; discriminate).
  unfold binaryToByte. rewrite parseInt2_bit_string by assumption.
  cbn [byte_of_entry]. rewrite <- lpad_toString2_byte.
  pose proof (parse_bits_range c Hc) as R. rewrite Lc in R.
  change (2 ^ Z.of_nat 8) with 256 in R.
  rewrite number_of_byte_of_number by exact R.
  pose proof (lpad_toString2_parse_bits c Hc NE) as P. rewrite Lc in P. exact P.
Qed.

Lemma length_toHex (b : Buffer) : length (toHex b) = (2 * length b)%nat.
Proof.
  unfold toHex. induction b as [|x b IH]; [reflexivity|].
  cbn [map concat length app]. rewrite IH. lia.
Qed.

Section Decoder.
Variable nfkd : jsstring -> jsstring.
Variable sha256 : Buffer -> Buffer.

(** [mnemonicToEntropy] on a buffer of [3 * k] words that are all in the
    wordlist: what is left of the function after the lookups. *)
Lemma mnemonicToEntropy_known_words (D : option wordlist_t) (m : Buffer)
  (wl : option wordlist_t) (W : wordlist_t) (k : nat) :
  or_else wl D = Some W -> (length W <= 2048)%nat ->
  Forall (fun word => In (utf8_decode word) W) (split_words m) ->
  length (split_words m) = (3 * k)%nat ->
  let bits := concat (map (word_bits W) (split_words m)) in
  let E := map byte_of_entry (map binaryToByte (chunks_of 8 (firstn (32 * k) bits))) in
  length bits = (33 * k)%nat /\ bit_string bits /\
  length E = (4 * k)%nat /\
  binary_expansion E = firstn (32 * k) bits /\
  mnemonicToEntropy nfkd sha256 D (IsBuffer m) wl
  = if (4 * k <? 16)%nat then Throw (Error INVALID_ENTROPY)
    else if (32 <? 4 * k)%nat then Throw (Error INVALID_ENTROPY)
    else if negb (str_eqb (deriveChecksumBits sha256 E) (skipn (32 * k) bits))
         then Throw (Error INVALID_CHECKSUM)
         else Ok (toHex E).
Proof.
  intros HW LW Hall Hn bits E.
  assert (Hk : (1 <= k)%nat).
  { pose proof (split_words_nonempty m) as NE.
    destruct (split_words m); [contradiction|]. simpl in Hn. lia. }
  assert (Hchunks : Forall (fun c => length c = 11%nat /\ bit_string c)
                      (map (word_bits W) (split_words m))).
  { apply Forall_map. eapply Forall_impl; [|exact Hall].
    intros word Hin. destruct (word_bits_known W word LW Hin) as [L [B _]]. auto. }
  assert (Lbits : length bits = (33 * k)%nat).
  { unfold bits. rewrite (length_concat_const 11), length_map, Hn; [lia|].
    eapply Forall_impl; [|exact Hchunks]. now intros c [L _]. }
  assert (Bbits : bit_string bits).
  { apply bit_string_concat. eapply Forall_impl; [|exact Hchunks]. now intros c [_ B]. }
  assert (Lent : length (firstn (32 * k) bits) = (8 * (4 * k))%nat)
    by (rewrite length_firstn, Lbits; lia).
  assert (Bent : bit_string (firstn (32 * k) bits)) by now apply bit_string_firstn.
  destruct (chunks_of_exact 8 (4 * k) _ ltac:(lia) Lent) as [Hlen8 Hcount].
  pose proof (chunks_of_bit_string 8 _ Bent) as Hbit8.
  assert (LE : length E = (4 * k)%nat)
    by (unfold E; now rewrite !length_map).
  assert (XE : binary_expansion E = firstn (32 * k) bits).
  { unfold binary_expansion, E. rewrite !map_map.
    rewrite <- (chunks_of_concat 8 (firstn (32 * k) bits)) at 2 by lia.
    f_equal. rewrite <- (map_id (chunks_of 8 (firstn (32 * k) bits))) at 2.
    apply map_ext_in. intros c Hc. apply bits_of_byte_of_entry.
    - exact (proj1 (Forall_forall _ _) Hbit8 c Hc).
    - exact (proj1 (Forall_forall _ _) Hlen8 c Hc). }
  split; [exact Lbits|]. split; [exact Bbits|]. split; [exact LE|].
  split; [exact XE|].
  unfold mnemonicToEntropy. rewrite HW, Hn, Nat.mul_comm, Nat.Div0.mod_mul.
  cbn [Nat.eqb negb].
  rewrite (mapM_all_ok _ (word_bits W)).
  2:{ eapply Forall_impl; [|exact Hall]. intros word Hin.
      destruct (indexOf_in W _ Hin) as [R _].
      destruct (Z.eqb_spec (indexOf W (utf8_decode word)) (-1)) as [F|_]; [lia|].
      reflexivity. }
  cbn [bind]. fold bits. rewrite Lbits.
  replace (33 * k)%nat with (k * 33)%nat by lia. rewrite Nat.div_mul by lia.
  replace (k * 32)%nat with (32 * k)%nat by lia.
  unfold slice_to, slice_from.
  rewrite str_match_chunks_of.
  2: lia.
  2: now apply bit_string_no_line_terminator.
  2:{ intros F. rewrite F in Lent. simpl in Lent. lia. }
  cbn [non_null bind]. rewrite !(length_map binaryToByte), !Hcount. fold E.
  replace ((4 * k) mod 4)%nat with 0%nat
    by (rewrite Nat.mul_comm, Nat.Div0.mod_mul; reflexivity).
  cbn [Nat.eqb negb]. reflexivity.
Qed.

Lemma mnemonicToEntropy_bad_count (D : option wordlist_t) (m : Buffer)
  (wl : option wordlist_t) (W : wordlist_t) :
  or_else wl D = Some W -> (length (split_words m) mod 3 <> 0)%nat ->
  mnemonicToEntropy nfkd sha256 D (IsBuffer m) wl = Throw (Error INVALID_MNEMONIC).
Proof.
  intros HW Hn. unfold mnemonicToEntropy. rewrite HW.
  destruct (Nat.eqb_spec (length (split_words m) mod 3) 0) as [F|_];
    [contradiction|reflexivity].
Qed.

Lemma mnemonicToEntropy_unknown (D : option wordlist_t) (m : Buffer)
  (wl : option wordlist_t) (W : wordlist_t) (word : Buffer) :
  or_else wl D = Some W ->
  In word (split_words m) -> ~ In (utf8_decode word) W ->
  mnemonicToEntropy nfkd sha256 D (IsBuffer m) wl = Throw (Error INVALID_MNEMONIC).
Proof.
  intros HW Hin Hn. unfold mnemonicToEntropy. rewrite HW.
  destruct (negb _); [reflexivity|].
  rewrite (mapM_throws _ (Error INVALID_MNEMONIC)); [reflexivity| |].
  - intros a _. destruct (indexOf W (utf8_decode a) =? -1); eauto.
  - exists word. split; [exact Hin|].
    unfold indexOf. rewrite indexOf_from_not_in by exact Hn. reflexivity.
Qed.

(** X6.  A word that is not in the wordlist makes [mnemonicToEntropy] throw
    [INVALID_MNEMONIC], whatever the other words and their number are. *)
Theorem mnemonicToEntropy_unknown_word (D : option wordlist_t) (m : Buffer)
  (wl : option wordlist_t) (W : wordlist_t) (word : Buffer) :
  or_else wl D = Some W ->
  In word (split_words m) -> ~ In (utf8_decode word) W ->
  mnemonicToEntropy nfkd sha256 D (IsBuffer m) wl = Throw (Error INVALID_MNEMONIC).
Proof. apply mnemonicToEntropy_unknown. Qed.

(** X7.  For a buffer whose words are all in a wordlist of at most 2048 words,
    the number [n] of words decides the outcome: [INVALID_MNEMONIC] when 3
    does not divide [n]; [INVALID_ENTROPY] when it does and [n] is below 12
    or above 24.  Otherwise the first [32n/3] of the [11n] bits of the words
    are the entropy [E], of [4n/3] bytes: the call returns [E] in
    hexadecimal when the remaining bits are the checksum of [E], and throws
    [INVALID_CHECKSUM] when they are not. *)
Theorem mnemonicToEntropy_word_count (D : option wordlist_t) (m : Buffer)
  (wl : option wordlist_t) (W : wordlist_t) :
  or_else wl D = Some W -> (length W <= 2048)%nat ->
  Forall (fun word => In (utf8_decode word) W) (split_words m) ->
  let n := length (split_words m) in
  let bits := concat (map (word_bits W) (split_words m)) in
  let r := mnemonicToEntropy nfkd sha256 D (IsBuffer m) wl in
  ((n mod 3 <> 0)%nat -> r = Throw (Error INVALID_MNEMONIC)) /\
  ((n mod 3 = 0)%nat -> (n < 12 \/ 24 < n)%nat -> r = Throw (Error INVALID_ENTROPY)) /\
  ((n mod 3 = 0)%nat -> (12 <= n <= 24)%nat ->
   exists E,
     (length E * 3 = n * 4)%nat /\
     binary_expansion E = firstn (32 * (n / 3)) bits /\
     ((deriveChecksumBits sha256 E = skipn (32 * (n / 3)) bits /\
       r = Ok (toHex E)) \/
      (deriveChecksumBits sha256 E <> skipn (32 * (n / 3)) bits /\
       r = Throw (Error INVALID_CHECKSUM)))).
Proof.
  intros HW LW Hall n bits r. split; [|split].
  - intros Hn. now apply mnemonicToEntropy_bad_count with (W := W).
  - intros Hn Hr.
    assert (Hk : n = (3 * (n / 3))%nat)
      by (pose proof (Nat.div_mod_eq n 3); lia).
    destruct (mnemonicToEntropy_known_words D m wl W (n / 3) HW LW Hall Hk)
      as [_ [_ [_ [_ Heq]]]].
    unfold r. rewrite Heq.
    destruct (Nat.ltb_spec (4 * (n / 3)) 16) as [|G1]; [reflexivity|].
    destruct (Nat.ltb_spec 32 (4 * (n / 3))) as [|G2]; [reflexivity|]. lia.
  - intros Hn Hr.
    assert (Hk : n = (3 * (n / 3))%nat)
      by (pose proof (Nat.div_mod_eq n 3); lia).
    destruct (mnemonicToEntropy_known_words D m wl W (n / 3) HW LW Hall Hk)
      as [_ [_ [LE [XE Heq]]]].
    unfold r. rewrite Heq.
    destruct (Nat.ltb_spec (4 * (n / 3)) 16) as [G1|_]; [lia|].
    destruct (Nat.ltb_spec 32 (4 * (n / 3))) as [G2|_]; [lia|].
    eexists. split; [|split; [exact XE|]].
    + rewrite LE. lia.
    + destruct (str_eqb _ _) eqn:Hsum; cbn [negb].
      * left. apply str_eqb_eq in Hsum. split; [exact Hsum|reflexivity].
      * right. split; [|reflexivity]. intros F.
        apply str_eqb_eq in F. unfold bits in F. congruence.
Qed.

Lemma separator_for_ascii (W : wordlist_t) :
  hd_error W <> Some JAPANESE_FIRST_WORD -> utf8_encode (separator_for W) = [x20].
Proof.
  intros NJ. destruct W as [|w W]; [reflexivity|]. cbn [separator_for].
  rewrite str_eqb_neq; [reflexivity|]. intros ->. now apply NJ.
Qed.

Lemma entropyToMnemonic_hex (D : option wordlist_t) (E : Buffer)
  (wl : option wordlist_t) :
  entropyToMnemonic nfkd sha256 D (IsString (toHex E)) wl
  = entropyToMnemonic nfkd sha256 D (IsBuffer E) wl.
Proof. unfold entropyToMnemonic. now rewrite fromHex_toHex. Qed.

(** X11.  Entropy given as the lowercase hexadecimal string of a buffer is
    encoded as the buffer itself is. *)
Theorem entropyToMnemonic_of_hex_string (D : option wordlist_t) (E : Buffer)
  (wl : option wordlist_t) :
  entropyToMnemonic nfkd sha256 D (IsString (toHex E)) wl
  = entropyToMnemonic nfkd sha256 D (IsBuffer E) wl.
Proof. apply entropyToMnemonic_hex. Qed.

Lemma decode_then_encode (D : option wordlist_t) (m : Buffer)
  (wl : option wordlist_t) (W : wordlist_t) (h : jsstring) :
  or_else wl D = Some W -> (length W <= 2048)%nat ->
  hd_error W <> Some JAPANESE_FIRST_WORD ->
  Forall (fun word => utf8_encode (nfkd (utf8_decode word)) = word) (split_words m) ->
  mnemonicToEntropy nfkd sha256 D (IsBuffer m) wl = Ok h ->
  entropyToMnemonic nfkd sha256 D (IsString h) wl = Ok m.
Proof.
  intros HW LW NJ Hcanon Hok.
  assert (Hn : (length (split_words m) mod 3 = 0)%nat).
  { destruct (Nat.eq_dec (length (split_words m) mod 3) 0) as [|F]; [assumption|].
    rewrite (mnemonicToEntropy_bad_count D m wl W HW F) in Hok. discriminate. }
  assert (Hall : Forall (fun word => In (utf8_decode word) W) (split_words m)).
  { apply Forall_forall. intros word Hin.
    destruct (in_dec (list_eq_dec Z.eq_dec) (utf8_decode word) W) as [|F];
      [assumption|].
    rewrite (mnemonicToEntropy_unknown D m wl W word HW Hin F) in Hok.
    discriminate. }
  set (k := (length (split_words m) / 3)%nat).
  assert (Hk : length (split_words m) = (3 * k)%nat)
    by (pose proof (Nat.div_mod_eq (length (split_words m)) 3); unfold k; lia).
  destruct (mnemonicToEntropy_known_words D m wl W k HW LW Hall Hk)
    as [Lbits [Bbits [LE [XE Heq]]]].
  rewrite Heq in Hok. clear Heq.
  destruct (Nat.ltb_spec (4 * k) 16) as [|G1]; [discriminate|].
  destruct (Nat.ltb_spec 32 (4 * k)) as [|G2]; [discriminate|].
  destruct (str_eqb _ _) eqn:Hsum; [|discriminate].
  apply str_eqb_eq in Hsum. cbn [negb] in Hok.
  set (bits := concat (map (word_bits W) (split_words m))) in *.
  set (E := map byte_of_entry (map binaryToByte (chunks_of 8 (firstn (32 * k) bits)))) in *.
  assert (Hh : toHex E = h) by congruence. rewrite <- Hh. clear Hok Hh.
  rewrite entropyToMnemonic_hex.
  rewrite (entropyToMnemonic_joined nfkd sha256 D E wl W HW).
  2: lia.
  2: rewrite LE, Nat.mul_comm; apply Nat.Div0.mod_mul.
  rewrite separator_for_ascii by exact NJ. f_equal.
  transitivity (join_with [x20] (split_words m));
    [|exact (proj1 (split_words_spec m))].
  f_equal. unfold mnemonic_words, mnemonic_bits.
  rewrite <- deriveChecksumBits_checksum_bits, Hsum, XE, firstn_skipn.
  unfold bits. rewrite chunks_of_blocks.
  2: lia.
  2:{ apply Forall_map. eapply Forall_impl; [|exact Hall].
      intros word Hin. now destruct (word_bits_known W word LW Hin) as [L _]. }
  rewrite map_map.
  transitivity (map (fun word : Buffer => word) (split_words m));
    [|apply map_id].
  apply map_ext_in. intros word Hin.
  pose proof (proj1 (Forall_forall _ _) Hall word Hin) as Hw.
  destruct (word_bits_known W word LW Hw) as [_ [_ P]].
  destruct (indexOf_in W _ Hw) as [_ N].
  unfold word_index. rewrite P, N.
  exact (proj1 (Forall_forall _ _) Hcanon word Hin).
Qed.

(** X9.  Decoding, then encoding.  Let the wordlist have at most 2048 words and
    not start with the Japanese first word, and let every word of the
    buffer [m] be the UTF-8 encoding of its own NFKD-normalised decoding.
    If [mnemonicToEntropy(m)] returns [h], then [entropyToMnemonic(h)]
    returns [m]. *)
Theorem entropyToMnemonic_mnemonicToEntropy (D : option wordlist_t) (m : Buffer)
  (wl : option wordlist_t) (W : wordlist_t) (h : jsstring) :
  or_else wl D = Some W -> (length W <= 2048)%nat ->
  hd_error W <> Some JAPANESE_FIRST_WORD ->
  Forall (fun word => utf8_encode (nfkd (utf8_decode word)) = word) (split_words m) ->
  mnemonicToEntropy nfkd sha256 D (IsBuffer m) wl = Ok h ->
  entropyToMnemonic nfkd sha256 D (IsString h) wl = Ok m.
Proof. apply decode_then_encode. Qed.

(** X10.  Let the wordlist and two buffers [m1] and [m2] be as in X9.  If
    [mnemonicToEntropy] reads both as the same entropy, they are the same
    buffer: an entropy has one mnemonic. *)
Theorem mnemonicToEntropy_injective (D : option wordlist_t) (m1 m2 : Buffer)
  (wl : option wordlist_t) (W : wordlist_t) (h : jsstring) :
  or_else wl D = Some W -> (length W <= 2048)%nat ->
  hd_error W <> Some JAPANESE_FIRST_WORD ->
  Forall (fun word => utf8_encode (nfkd (utf8_decode word)) = word) (split_words m1) ->
  Forall (fun word => utf8_encode (nfkd (utf8_decode word)) = word) (split_words m2) ->
  mnemonicToEntropy nfkd sha256 D (IsBuffer m1) wl = Ok h ->
  mnemonicToEntropy nfkd sha256 D (IsBuffer m2) wl = Ok h ->
  m1 = m2.
Proof.
  intros HW LW NJ C1 C2 H1 H2.
  pose proof (decode_then_encode D m1 wl W h HW LW NJ C1 H1) as E1.
  pose proof (decode_then_encode D m2 wl W h HW LW NJ C2 H2) as E2.
  congruence.
Qed.

(** X8.  What [mnemonicToEntropy] returns, when it returns: the lowercase
    hexadecimal string of 16, 20, 24, 28 or 32 bytes. *)
Theorem mnemonicToEntropy_returns_hex (D : option wordlist_t)
  (mnemonic : StringOrBuffer) (wl : option wordlist_t) (h : jsstring) :
  mnemonicToEntropy nfkd sha256 D mnemonic wl = Ok h ->
  exists E,
    h = toHex E /\ valid_entropy_length (length E) /\
    length h = (2 * length E)%nat.
Proof.
  unfold mnemonicToEntropy. intros H.
  destruct (or_else wl D) as [W|]; [|discriminate].
  destruct (negb _); [discriminate|].
  destruct (mapM _ _) as [chunks|]; [|discriminate]. cbn [bind] in H.
  destruct (str_match 8 _) as [matched|]; [|discriminate].
  cbn [non_null bind] in H.
  destruct (Nat.ltb_spec (length (map binaryToByte matched)) 16) as [|G1];
    [discriminate|].
  destruct (Nat.ltb_spec 32 (length (map binaryToByte matched))) as [|G2];
    [discriminate|].
  destruct (Nat.eqb_spec (length (map binaryToByte matched) mod 4) 0) as [G3|];
    [|discriminate].
  cbn [negb] in H. destruct (negb _); [discriminate|]. injection H as <-.
  eexists. split; [reflexivity|]. split.
  - apply valid_entropy_length_checks. rewrite length_map. split; [lia|exact G3].
  - apply length_toHex.
Qed.

End Decoder.

(* ================================================================= *)
(** ** Further properties of [entropyToMnemonic] and [generateMnemonic] *)

Section Encoder.
Variable nfkd : jsstring -> jsstring.
Variable sha256 : Buffer -> Buffer.
Variable randomBytes : Z -> result Buffer.

(** X12.  With a hash of 32 bytes and a wordlist of 2048 words, the mnemonic of
    [N] bytes of entropy has [3N/4] words (12, 15, 18, 21 or 24), and each
    is the NFKD-normalised UTF-8 encoding of a word of the list. *)
Theorem entropyToMnemonic_words (D : option wordlist_t) (E : Buffer)
  (wl : option wordlist_t) (W : wordlist_t) :
  length (sha256 E) = 32%nat ->
  valid_entropy_length (length E) ->
  or_else wl D = Some W -> length W = 2048%nat ->
  exists words,
    entropyToMnemonic nfkd sha256 D (IsBuffer E) wl
    = Ok (join_with (utf8_encode (separator_for W)) words) /\
    (length words * 4 = length E * 3)%nat /\
    Forall (fun word => exists w, In w W /\ word = utf8_encode (nfkd w)) words.
Proof.
  intros H32 HV HW LW.
  destruct (valid_entropy_length_quarters _ HV) as [k [Lk Hk]].
  apply valid_entropy_length_checks in HV as [R M].
  exists (mnemonic_words nfkd sha256 W E). split; [|split].
  - now apply entropyToMnemonic_joined.
  - pose proof (length_mnemonic_bits sha256 E k H32 Lk ltac:(lia)) as Lb.
    destruct (chunks_of_exact 11 (3 * k) _ ltac:(lia) Lb) as [_ Hc].
    unfold mnemonic_words. rewrite length_map, Hc, Lk. lia.
  - unfold mnemonic_words. apply Forall_map, Forall_forall. intros c Hc.
    assert (Hbits : bit_string (mnemonic_bits sha256 E)).
    { apply bit_string_app. split; [apply bit_string_binary_expansion|].
      apply bit_string_firstn, bit_string_binary_expansion. }
    pose proof (proj1 (Forall_forall _ _) (chunks_of_bit_string 11 _ Hbits) c Hc) as Bc.
    pose proof (proj1 (Forall_forall _ _)
                  (chunks_fuel_length_le 11 _ (mnemonic_bits sha256 E)) c Hc) as Lc.
    pose proof (word_index_lt_2048 c Bc Lc) as Hi.
    exists (nth (word_index c) W []). split; [apply nth_In; lia|reflexivity].
Qed.

Lemma toHex_injective (a b : Buffer) : toHex a = toHex b -> a = b.
Proof.
  intros H. rewrite <- (fromHex_toHex a), <- (fromHex_toHex b). now rewrite H.
Qed.

(** X13.  Under the conditions of the round trip, two entropies with the same
    mnemonic are equal. *)
Theorem entropyToMnemonic_injective (D : option wordlist_t) (E1 E2 : Buffer)
  (wl : option wordlist_t) (W : wordlist_t) (mnemonic : Buffer) :
  (forall b, length (sha256 b) = 32%nat) ->
  valid_entropy_length (length E1) -> valid_entropy_length (length E2) ->
  or_else wl D = Some W ->
  length W = 2048%nat -> NoDup W -> Forall (readable_word nfkd) W ->
  hd_error W <> Some JAPANESE_FIRST_WORD ->
  entropyToMnemonic nfkd sha256 D (IsBuffer E1) wl = Ok mnemonic ->
  entropyToMnemonic nfkd sha256 D (IsBuffer E2) wl = Ok mnemonic ->
  E1 = E2.
Proof.
  intros H32 V1 V2 HW LW ND RW NJ M1 M2.
  destruct (roundtrip_resolved nfkd sha256 D E1 wl W H32 V1 HW LW ND RW NJ)
    as [m1 [A1 B1]].
  destruct (roundtrip_resolved nfkd sha256 D E2 wl W H32 V2 HW LW ND RW NJ)
    as [m2 [A2 B2]].
  apply toHex_injective. congruence.
Qed.

(** X14.  Under the conditions of the round trip, [validateMnemonic] accepts the
    mnemonic of every valid entropy when it is given as a string that
    normalisation and encoding turn back into the mnemonic's bytes. *)
Theorem validateMnemonic_of_entropyToMnemonic (D : option wordlist_t) (E : Buffer)
  (wl : option wordlist_t) (W : wordlist_t) (mnemonic : Buffer) :
  (forall b, length (sha256 b) = 32%nat) ->
  valid_entropy_length (length E) ->
  or_else wl D = Some W ->
  length W = 2048%nat -> NoDup W -> Forall (readable_word nfkd) W ->
  hd_error W <> Some JAPANESE_FIRST_WORD ->
  entropyToMnemonic nfkd sha256 D (IsBuffer E) wl = Ok mnemonic ->
  utf8_encode (nfkd (utf8_decode mnemonic)) = mnemonic ->
  validateMnemonic nfkd sha256 D (utf8_decode mnemonic) wl = true /\
  mnemonicToEntropy nfkd sha256 D (IsString (utf8_decode mnemonic)) wl
  = Ok (toHex E).
Proof.
  intros H32 HV HW LW ND RW NJ Henc Hstr.
  destruct (roundtrip_resolved nfkd sha256 D E wl W H32 HV HW LW ND RW NJ)
    as [m [A B]].
  assert (m = mnemonic) by congruence. subst m.
  assert (S : mnemonicToEntropy nfkd sha256 D (IsString (utf8_decode mnemonic)) wl
              = mnemonicToEntropy nfkd sha256 D (IsBuffer mnemonic) wl).
  { unfold mnemonicToEntropy, normalize. cbn [or_empty]. now rewrite Hstr. }
  split; [|now rewrite S].
  unfold validateMnemonic. now rewrite S, B.
Qed.

Lemma entropyToMnemonic_bad_length (D : option wordlist_t) (E : Buffer)
  (wl : option wordlist_t) (W : wordlist_t) :
  or_else wl D = Some W -> (length E < 16 \/ 32 < length E)%nat ->
  entropyToMnemonic nfkd sha256 D (IsBuffer E) wl = Throw (TypeError INVALID_ENTROPY).
Proof.
  intros HW Bad. unfold entropyToMnemonic. rewrite HW.
  destruct (Nat.ltb_spec (length E) 16) as [|G1]; [reflexivity|].
  destruct (Nat.ltb_spec 32 (length E)) as [|G2]; [reflexivity|lia].
Qed.

(** X15.  The strengths [generateMnemonic] accepts.  With a wordlist available
    and an [rng] that returns [s/8] bytes, a strength [s] other than 0 that
    32 divides gives a mnemonic when it is between 128 and 256, and
    [INVALID_ENTROPY] (after the call of [rng]) when it is not. *)
Theorem generateMnemonic_strengths (D : option wordlist_t) (s : Z)
  (rng : option (Z -> result Buffer)) (wl : option wordlist_t)
  (W : wordlist_t) (bytes : Buffer) :
  or_else wl D = Some W ->
  s <> 0 -> Z.rem s 32 = 0 ->
  rng_used randomBytes rng (s / 8) = Ok bytes ->
  length bytes = Z.to_nat (s / 8) ->
  (128 <= s <= 256 ->
   exists mnemonic,
     generateMnemonic nfkd sha256 randomBytes D (Some s) rng wl
     = ([s / 8], Ok mnemonic)) /\
  (s < 128 \/ 256 < s ->
   generateMnemonic nfkd sha256 randomBytes D (Some s) rng wl
   = ([s / 8], Throw (TypeError INVALID_ENTROPY))).
Proof.
  intros HW Hs Hr Hrng Hlen.
  assert (Hq : s = 32 * Z.quot s 32)
    by (pose proof (Z.quot_rem' s 32); lia).
  assert (H8 : s / 8 = 4 * Z.quot s 32).
  { rewrite Hq at 1. replace (32 * Z.quot s 32) with (4 * Z.quot s 32 * 8) by lia.
    apply Z.div_mul. lia. }
  assert (Hgen : generateMnemonic nfkd sha256 randomBytes D (Some s) rng wl
                 = ([s / 8], entropyToMnemonic nfkd sha256 D (IsBuffer bytes) wl)).
  { unfold generateMnemonic.
    destruct (Z.eqb_spec s 0) as [|_]; [contradiction|].
    rewrite Hr. cbn [Z.eqb negb]. fold (rng_used randomBytes rng).
    rewrite Hrng. reflexivity. }
  rewrite Hgen. split.
  - intros R. eexists. f_equal.
    apply (entropyToMnemonic_joined nfkd sha256 D bytes wl W HW).
    + rewrite Hlen, H8. lia.
    + rewrite Hlen, H8, Z2Nat.inj_mul by lia.
      rewrite Nat.mul_comm. apply Nat.Div0.mod_mul.
  - intros Bad. f_equal.
    apply (entropyToMnemonic_bad_length D bytes wl W HW).
    rewrite Hlen, H8. lia.
Qed.

(** X16.  With no wordlist passed and no default, [generateMnemonic] still calls
    [rng], and fails with [WORDLIST_REQUIRED] afterwards. *)
Theorem generateMnemonic_without_wordlist (s : Z)
  (rng : option (Z -> result Buffer)) (bytes : Buffer) :
  s <> 0 -> Z.rem s 32 = 0 ->
  rng_used randomBytes rng (s / 8) = Ok bytes ->
  generateMnemonic nfkd sha256 randomBytes None (Some s) rng None
  = ([s / 8], Throw (Error WORDLIST_REQUIRED)).
Proof.
  intros Hs Hr Hrng. unfold generateMnemonic.
  destruct (Z.eqb_spec s 0) as [|_]; [contradiction|].
  rewrite Hr. cbn [Z.eqb negb]. fold (rng_used randomBytes rng).
  rewrite Hrng. reflexivity.
Qed.

End Encoder.

(* ================================================================= *)
(** ** Further properties of the default wordlist *)

(** X17.  What [getDefaultWordlist] answers when a default is set: a language
    that is registered, is neither "JA" nor "EN", and whose wordlist agrees
    with the default at each of its own indices; or nothing ([undefined]),
    exactly when no registered language is such a language. *)
Theorem getDefaultWordlist_answer (wordlists : object wordlist_t)
  (dflt : wordlist_t) :
  exists r,
    getDefaultWordlist wordlists (Some dflt) = Ok r /\
    (forall lang, r = Some lang ->
       In lang (keys wordlists) /\ candidate wordlists dflt lang) /\
    (r = None <->
     forall lang, In lang (keys wordlists) -> ~ candidate wordlists dflt lang).
Proof.
  unfold getDefaultWordlist.
  set (p := fun lang : jsstring => _).
  assert (Hp : forall lang, p lang = true <-> candidate wordlists dflt lang)
    by (intros lang; apply scan_candidate).
  eexists. split; [reflexivity|]. split.
  - intros lang E. apply hd_error_filter in E as [before [after [Hk [Px _]]]].
    split; [|now apply Hp]. rewrite Hk. apply in_or_app. right. now left.
  - split.
    + intros E lang Hin C. apply Hp in C.
      assert (I : In lang (filter p (keys wordlists)))
        by (apply filter_In; now split).
      destruct (filter p (keys wordlists)); [exact I|discriminate].
    + intros Hnone. destruct (filter p (keys wordlists)) as [|lang l] eqn:E;
        [reflexivity|]. exfalso.
      assert (I : In lang (filter p (keys wordlists))) by (rewrite E; now left).
      apply filter_In in I as [Hin Px]. apply (Hnone lang Hin). now apply Hp.
Qed.

(** A key of an object has a value. *)
Lemma In_keys_get {A} (o : object A) (key : jsstring) :
  In key (keys o) -> exists v, get o key = Some v.
Proof.
  induction o as [|[k x] o IH]; cbn [get keys map fst]; [intros []|].
  intros Hin. destruct (str_eqb k key) eqn:E; [now exists x|].
  destruct Hin as [->|Hin]; [|now apply IH].
  rewrite str_eqb_refl in E. discriminate.
Qed.

Section DefaultWordlist.
Variable nfkd : jsstring -> jsstring.
Variable sha256 : Buffer -> Buffer.

(** X18.  For a language that is registered (an own key of the registry),
    [setDefaultWordlist(language)] succeeds and makes the wordlist
    registered for it the default; from then on a call that omits the
    wordlist behaves as the same call with that wordlist passed explicitly,
    whatever the default was then. *)
Theorem setDefaultWordlist_then_omitted (wordlists : object wordlist_t)
  (language : jsstring) :
  In language (keys wordlists) ->
  exists L,
    get wordlists language = Some L /\
    setDefaultWordlist wordlists language = Ok (Some L) /\
    (forall D entropy,
        entropyToMnemonic nfkd sha256 (Some L) entropy None
        = entropyToMnemonic nfkd sha256 D entropy (Some L)) /\
    (forall D mnemonic,
        mnemonicToEntropy nfkd sha256 (Some L) mnemonic None
        = mnemonicToEntropy nfkd sha256 D mnemonic (Some L)) /\
    (forall D mnemonic,
        validateMnemonic nfkd sha256 (Some L) mnemonic None
        = validateMnemonic nfkd sha256 D mnemonic (Some L)).
Proof.
  intros Hin. destruct (In_keys_get wordlists language Hin) as [L HL].
  exists L. unfold setDefaultWordlist. rewrite HL. repeat split.
Qed.

End DefaultWordlist.

(* ================================================================= *)
(** ** Further properties of the seed derivation *)

Section Seed.
Variable nfkd : jsstring -> jsstring.
Variable pbkdf2Sync : Buffer -> Buffer -> Z -> Z -> jsstring -> Buffer.
Variable pbkdf2 : Buffer -> Buffer -> Z -> Z -> jsstring -> option exn * Buffer.

(** X19.  When the asynchronous key derivation calls back without error and with
    the key the synchronous one returns, [mnemonicToSeed] resolves with the
    seed that [mnemonicToSeedSync] returns for the same string and
    password. *)
Theorem mnemonicToSeed_agrees_with_sync (mnemonic : jsstring)
  (password : option jsstring) :
  (forall pw st iterations keylen digest,
      pbkdf2 pw st iterations keylen digest
      = (None, pbkdf2Sync pw st iterations keylen digest)) ->
  mnemonicToSeed nfkd pbkdf2 mnemonic password
  = Ok (mnemonicToSeedSync nfkd pbkdf2Sync (IsString mnemonic) password).
Proof.
  intros Hsame. unfold mnemonicToSeed, pbkdf2Promise, mnemonicToSeedSync.
  rewrite Hsame. reflexivity.
Qed.

End Seed.

(* ================================================================= *)
(** ** The further properties at concrete inputs *)

Section MoreInstances.
Import Sample MoreSamples.

Lemma english_like_length_le : (length english_like <= 2048)%nat.
Proof. apply Nat.leb_le. vm_compute. reflexivity. Qed.

Lemma abandon_about_words :
  split_words (utf8_encode abandon_about)
  = repeat (utf8_encode (js "abandon")) 11 ++ [utf8_encode (js "about")].
Proof. vm_compute. reflexivity. Qed.

Lemma abandon_about_canonical :
  Forall (fun word => utf8_encode (nfkd_basic (utf8_decode word)) = word)
    (split_words (utf8_encode abandon_about)).
Proof.
  rewrite abandon_about_words. cbn [repeat app].
  repeat (constructor; [vm_compute; reflexivity|]). constructor.
Qed.

Lemma abandon_about_decodes :
  mnemonicToEntropy nfkd_basic SHA256.digest None
    (IsBuffer (utf8_encode abandon_about)) (Some english_like)
  = Ok (toHex zeros16).
Proof. vm_compute. reflexivity. Qed.

(** X6, witness: the second of three words is not in the list. *)
Lemma mnemonicToEntropy_unknown_word_witness :
  mnemonicToEntropy nfkd_basic SHA256.digest None
    (IsBuffer unknown3) (Some english_like)
  = Throw (Error INVALID_MNEMONIC).
Proof.
  apply (mnemonicToEntropy_unknown_word nfkd_basic SHA256.digest None unknown3
           (Some english_like) english_like (utf8_encode (js "zzz")) eq_refl).
  - right. left. reflexivity.
  - apply existsb_str_eqb_false. vm_compute. reflexivity.
Defined.

Lemma abandon3_known :
  Forall (fun word => In (utf8_decode word) english_like) (split_words abandon3).
Proof.
  assert (E : split_words abandon3 = repeat (utf8_encode (js "abandon")) 3)
    by (vm_compute; reflexivity).
  rewrite E. cbn [repeat].
  repeat (constructor; [left; reflexivity|]). constructor.
Qed.

(** X7, witness: three words of the list. *)
Lemma mnemonicToEntropy_word_count_witness :
  mnemonicToEntropy nfkd_basic SHA256.digest None
    (IsBuffer abandon3) (Some english_like)
  = Throw (Error INVALID_ENTROPY).
Proof.
  apply (proj1 (proj2 (mnemonicToEntropy_word_count nfkd_basic SHA256.digest None
                         abandon3 (Some english_like) english_like eq_refl
                         english_like_length_le abandon3_known))).
  - reflexivity.
  - left. apply Nat.ltb_lt. reflexivity.
Defined.

(** X9, witness: the reference vector for sixteen zero bytes. *)
Lemma entropyToMnemonic_mnemonicToEntropy_witness :
  entropyToMnemonic nfkd_basic SHA256.digest None
    (IsString (toHex zeros16)) (Some english_like)
  = Ok (utf8_encode abandon_about).
Proof.
  apply (entropyToMnemonic_mnemonicToEntropy nfkd_basic SHA256.digest None
           (utf8_encode abandon_about) (Some english_like) english_like
           (toHex zeros16) eq_refl english_like_length_le).
  - discriminate.
  - exact abandon_about_canonical.
  - exact abandon_about_decodes.
Defined.

(** X10, witness. *)
Lemma mnemonicToEntropy_injective_witness :
  mnemonicToEntropy nfkd_basic SHA256.digest None
    (IsBuffer (utf8_encode abandon_about)) (Some english_like)
  = Ok (toHex zeros16) /\
  utf8_encode abandon_about = utf8_encode abandon_about.
Proof.
  split; [exact abandon_about_decodes|].
  apply (mnemonicToEntropy_injective nfkd_basic SHA256.digest None
           (utf8_encode abandon_about) (utf8_encode abandon_about)
           (Some english_like) english_like (toHex zeros16) eq_refl
           english_like_length_le).
  - discriminate.
  - exact abandon_about_canonical.
  - exact abandon_about_canonical.
  - exact abandon_about_decodes.
  - exact abandon_about_decodes.
Defined.

(** X8, witness. *)
Lemma mnemonicToEntropy_returns_hex_witness :
  exists E,
    toHex zeros16 = toHex E /\ valid_entropy_length (length E) /\
    length (toHex zeros16) = (2 * length E)%nat.
Proof.
  apply (mnemonicToEntropy_returns_hex nfkd_basic SHA256.digest None
           (IsBuffer (utf8_encode abandon_about)) (Some english_like)).
  exact abandon_about_decodes.
Defined.

(** X12, witness: twenty bytes, fifteen words. *)
Lemma entropyToMnemonic_words_witness :
  exists words,
    entropyToMnemonic nfkd_basic SHA256.digest None
      (IsBuffer entropy20) (Some english_like)
    = Ok (join_with (utf8_encode (separator_for english_like)) words) /\
    (length words * 4 = length entropy20 * 3)%nat /\
    Forall (fun word => exists w, In w english_like /\
                                  word = utf8_encode (nfkd_basic w)) words.
Proof.
  apply (entropyToMnemonic_words nfkd_basic SHA256.digest None entropy20
           (Some english_like) english_like).
  - apply SHA256_digest_length.
  - right. left. reflexivity.
  - reflexivity.
  - reflexivity.
Defined.

(** X13, witness. *)
Lemma entropyToMnemonic_injective_witness :
  entropyToMnemonic nfkd_basic SHA256.digest None (IsBuffer zeros16) (Some english_like)
  = Ok (utf8_encode abandon_about) /\
  zeros16 = zeros16.
Proof.
  split; [vm_compute; reflexivity|].
  apply (entropyToMnemonic_injective nfkd_basic SHA256.digest None zeros16 zeros16
           (Some english_like) english_like (utf8_encode abandon_about)
           SHA256_digest_length (or_introl eq_refl) (or_introl eq_refl) eq_refl
           eq_refl english_like_NoDup english_like_readable).
  - discriminate.
  - vm_compute. reflexivity.
  - vm_compute. reflexivity.
Defined.

(** X14, witness. *)
Lemma validateMnemonic_of_entropyToMnemonic_witness :
  validateMnemonic nfkd_basic SHA256.digest None
    (utf8_decode (utf8_encode abandon_about)) (Some english_like) = true /\
  mnemonicToEntropy nfkd_basic SHA256.digest None
    (IsString (utf8_decode (utf8_encode abandon_about))) (Some english_like)
  = Ok (toHex zeros16).
Proof.
  apply (validateMnemonic_of_entropyToMnemonic nfkd_basic SHA256.digest None zeros16
           (Some english_like) english_like (utf8_encode abandon_about)
           SHA256_digest_length (or_introl eq_refl) eq_refl eq_refl
           english_like_NoDup english_like_readable).
  - discriminate.
  - vm_compute. reflexivity.
  - vm_compute. reflexivity.
Defined.

(** X15, witness: strength 160 is accepted, strength 64 is not. *)
Lemma generateMnemonic_strengths_witness :
  (exists mnemonic,
      generateMnemonic nfkd_basic SHA256.digest zero_rng None
        (Some 160) (Some zero_rng) (Some english_like)
      = ([160 / 8], Ok mnemonic)) /\
  generateMnemonic nfkd_basic SHA256.digest zero_rng None
    (Some 64) (Some zero_rng) (Some english_like)
  = ([64 / 8], Throw (TypeError INVALID_ENTROPY)).
Proof.
  split.
  - apply (proj1 (generateMnemonic_strengths nfkd_basic SHA256.digest zero_rng None
                    160 (Some zero_rng) (Some english_like) english_like
                    (repeat x00 20) eq_refl ltac:(discriminate) eq_refl eq_refl
                    eq_refl)).
    lia.
  - apply (proj2 (generateMnemonic_strengths nfkd_basic SHA256.digest zero_rng None
                    64 (Some zero_rng) (Some english_like) english_like
                    (repeat x00 8) eq_refl ltac:(discriminate) eq_refl eq_refl
                    eq_refl)).
    left. lia.
Defined.

(** X16, witness. *)
Lemma generateMnemonic_without_wordlist_witness :
  generateMnemonic nfkd_basic SHA256.digest zero_rng None (Some 128) None None
  = ([128 / 8], Throw (Error WORDLIST_REQUIRED)).
Proof.
  apply (generateMnemonic_without_wordlist nfkd_basic SHA256.digest zero_rng 128
           None (repeat x00 16)).
  - discriminate.
  - reflexivity.
  - reflexivity.
Defined.

(** X18, witness: "JA" in a registry of three languages. *)
Lemma setDefaultWordlist_then_omitted_witness :
  exists L,
    get plain_registry (js "JA") = Some L /\
    setDefaultWordlist plain_registry (js "JA") = Ok (Some L) /\
    (forall D entropy,
        entropyToMnemonic nfkd_basic SHA256.digest (Some L) entropy None
        = entropyToMnemonic nfkd_basic SHA256.digest D entropy (Some L)) /\
    (forall D mnemonic,
        mnemonicToEntropy nfkd_basic SHA256.digest (Some L) mnemonic None
        = mnemonicToEntropy nfkd_basic SHA256.digest D mnemonic (Some L)) /\
    (forall D mnemonic,
        validateMnemonic nfkd_basic SHA256.digest (Some L) mnemonic None
        = validateMnemonic nfkd_basic SHA256.digest D mnemonic (Some L)).
Proof.
  apply (setDefaultWordlist_then_omitted nfkd_basic SHA256.digest plain_registry
           (js "JA")).
  right. left. reflexivity.
Defined.

(** X19, witness. *)
Lemma mnemonicToSeed_agrees_with_sync_witness :
  mnemonicToSeed nfkd_basic concat_kdf_callback abandon_about None
  = Ok (mnemonicToSeedSync nfkd_basic concat_kdf (IsString abandon_about) None).
Proof.
  apply (mnemonicToSeed_agrees_with_sync nfkd_basic concat_kdf concat_kdf_callback).
  reflexivity.
Defined.

End MoreInstances.
